(** * A shallow embedding of [minesweeper.py]: [Sentence] and [MinesweeperAI]

    Cells are pairs of Python integers, cell sets are finite sets, the
    knowledge base is a Python list of mutable [Sentence] objects.  The
    Python loops that remove from the list they iterate over are modelled
    with the list iterator's index, so that the element skipped after a
    removal is skipped here too. *)

From stdpp Require Import gmap list.
From Stdlib Require Import ZArith Lia.

Open Scope Z_scope.

(** ** Data model *)

Definition cell : Type := Z * Z.

(** [class Sentence]: a set of cells and the number of them that are mines. *)
Record Sentence : Type := mkSentence { cells : gset cell; count : Z }.

#[global] Instance Sentence_eq_dec : EqDecision Sentence.
Proof. solve_decision. Defined.

(** [len(sentence.cells)] as a Python integer. *)
Definition len_cells (s : Sentence) : Z := Z.of_nat (size (cells s)).

Module Sentence.

Definition known_mines (s : Sentence) : gset cell :=
  if decide (len_cells s = count s) then cells s else ∅.

Definition known_safes (s : Sentence) : gset cell :=
  if decide (count s = 0) then cells s else ∅.

Definition mark_mine (c : cell) (s : Sentence) : Sentence :=
  if decide (c ∈ cells s)
  then {| cells := cells s ∖ {[c]}; count := count s - 1 |}
  else s.

Definition mark_safe (c : cell) (s : Sentence) : Sentence :=
  if decide (c ∈ cells s)
  then {| cells := cells s ∖ {[c]}; count := count s |}
  else s.

End Sentence.

(** Python leaves the iteration order of a [set] unspecified.  Every loop
    [for cell in some_set] goes through [set_iter], about which only this is
    known: it enumerates the elements of the set, each once.  The order is
    taken to depend on the contents of the set alone. *)
Class SetIter : Type := {
  set_iter : gset cell → list cell;
  set_iter_perm : ∀ s, set_iter s ≡ₚ elements s
}.

(** The enumeration used to run the model on concrete boards. *)
Definition elements_iter : SetIter :=
  {| set_iter := elements; set_iter_perm := λ s, reflexivity (elements s) |}.

(** A reference to a [Sentence] object: its index in the object store. *)
Definition ref : Type := nat.

(** [class MinesweeperAI].  [knowledge] is the Python list, holding references;
    [objects] holds the current value of every [Sentence] object that was ever
    put in the list, so that the snapshot taken by [itertools.combinations]
    sees later mutations of the objects it holds. *)
Record MinesweeperAI : Type := mkAI {
  height : Z;
  width : Z;
  moves_made : gset cell;
  mines : gset cell;
  safes : gset cell;
  knowledge : list ref;
  objects : list Sentence
}.

#[global] Instance MinesweeperAI_eq_dec : EqDecision MinesweeperAI.
Proof. solve_decision. Defined.

(** [MinesweeperAI.__init__] *)
Definition init (h w : Z) : MinesweeperAI :=
  {| height := h; width := w; moves_made := ∅; mines := ∅; safes := ∅;
     knowledge := []; objects := [] |}.

Definition set_moves_made (f : gset cell → gset cell) (ai : MinesweeperAI) :=
  {| height := height ai; width := width ai; moves_made := f (moves_made ai);
     mines := mines ai; safes := safes ai; knowledge := knowledge ai;
     objects := objects ai |}.

Definition set_mines (f : gset cell → gset cell) (ai : MinesweeperAI) :=
  {| height := height ai; width := width ai; moves_made := moves_made ai;
     mines := f (mines ai); safes := safes ai; knowledge := knowledge ai;
     objects := objects ai |}.

Definition set_safes (f : gset cell → gset cell) (ai : MinesweeperAI) :=
  {| height := height ai; width := width ai; moves_made := moves_made ai;
     mines := mines ai; safes := f (safes ai); knowledge := knowledge ai;
     objects := objects ai |}.

Definition set_knowledge (f : list ref → list ref) (ai : MinesweeperAI) :=
  {| height := height ai; width := width ai; moves_made := moves_made ai;
     mines := mines ai; safes := safes ai; knowledge := f (knowledge ai);
     objects := objects ai |}.

Definition set_objects (f : list Sentence → list Sentence) (ai : MinesweeperAI) :=
  {| height := height ai; width := width ai; moves_made := moves_made ai;
     mines := mines ai; safes := safes ai; knowledge := knowledge ai;
     objects := f (objects ai) |}.

(** The value of the object behind a reference.  Every reference in
    [knowledge] was allocated by [append_sentence]; the default is never
    reached from there. *)
Definition deref (ai : MinesweeperAI) (r : ref) : Sentence :=
  default {| cells := ∅; count := 0 |} (objects ai !! r).

(** In-place mutation of a [Sentence] object. *)
Definition update (r : ref) (s : Sentence) (ai : MinesweeperAI) : MinesweeperAI :=
  set_objects (λ o, <[r := s]> o) ai.

(** The knowledge base as the list of sentence values, in list order. *)
Definition sentences (ai : MinesweeperAI) : list Sentence :=
  deref ai <$> knowledge ai.

(** [self.knowledge.append(Sentence(...))]: a fresh object at the end. *)
Definition append_sentence (s : Sentence) (ai : MinesweeperAI) : MinesweeperAI :=
  set_knowledge (λ k, k ++ [length (objects ai)]) (set_objects (λ o, o ++ [s]) ai).

(** [list.remove(x)]: drops the first element that compares equal to [x].
    Python raises [ValueError] when there is none; every call in this file
    passes an element of the list. *)
Fixpoint remove_first {A} (p : A → bool) (l : list A) : list A :=
  match l with
  | [] => []
  | x :: l' => if p x then l' else x :: remove_first p l'
  end.

(** [self.knowledge.remove(sentence)]: [Sentence.__eq__] compares values, so
    the first sentence with the same cells and count goes, which need not be
    the object passed. *)
Definition knowledge_remove (s : Sentence) (ai : MinesweeperAI) : MinesweeperAI :=
  set_knowledge (remove_first (λ r, bool_decide (deref ai r = s))) ai.

(** [for sentence in self.knowledge: body]: the list iterator keeps an index
    and re-reads the list at every step, so a removal by [body] shifts the
    rest of the list under the index.  No loop of the file appends to the list
    while iterating it, so the length at entry bounds the number of steps
    ([for_knowledge_fuel] below). *)
Fixpoint for_knowledge_from (body : ref → MinesweeperAI → MinesweeperAI)
    (fuel i : nat) (ai : MinesweeperAI) : MinesweeperAI :=
  match fuel with
  | O => ai
  | S fuel' =>
      match knowledge ai !! i with
      | None => ai
      | Some r => for_knowledge_from body fuel' (S i) (body r ai)
      end
  end.

Definition for_knowledge (body : ref → MinesweeperAI → MinesweeperAI)
    (ai : MinesweeperAI) : MinesweeperAI :=
  for_knowledge_from body (length (knowledge ai)) 0 ai.

(** ** [MinesweeperAI] methods *)

Definition mark_mine_body (c : cell) (r : ref) (ai : MinesweeperAI) : MinesweeperAI :=
  let s := Sentence.mark_mine c (deref ai r) in
  let ai := update r s ai in
  if decide (len_cells s = 0) then knowledge_remove s ai else ai.

Definition mark_mine (c : cell) (ai : MinesweeperAI) : MinesweeperAI :=
  for_knowledge (mark_mine_body c) (set_mines (λ m, {[c]} ∪ m) ai).

Definition mark_safe_body (c : cell) (r : ref) (ai : MinesweeperAI) : MinesweeperAI :=
  let s := Sentence.mark_safe c (deref ai r) in
  let ai := update r s ai in
  if decide (len_cells s = 0) then knowledge_remove s ai else ai.

Definition mark_safe (c : cell) (ai : MinesweeperAI) : MinesweeperAI :=
  for_knowledge (mark_safe_body c) (set_safes (λ m, {[c]} ∪ m) ai).

(** [range(a - 1, a + 2)] *)
Definition around (a : Z) : list Z := [a - 1; a; a + 1].

Definition get_neighbors (ai : MinesweeperAI) (c : cell) : list cell :=
  i ← around c.1;
  j ← around c.2;
  if bool_decide (0 ≤ i < height ai ∧ 0 ≤ j < width ai ∧ (i, j) ≠ c)
  then [(i, j)] else [].

Definition mines_in_neighbors (ai : MinesweeperAI) (c : cell) : Z :=
  Z.of_nat (length (filter (λ n, n ∈ mines ai) (get_neighbors ai c))).

(** [for neighbor in nieghbors: if ...: nieghbors.remove(neighbor)], with the
    iterator's index as in [for_knowledge_from]. *)
Fixpoint unknown_from (known : cell → bool) (fuel i : nat) (l : list cell) : list cell :=
  match fuel with
  | O => l
  | S fuel' =>
      match l !! i with
      | None => l
      | Some n =>
          unknown_from known fuel' (S i)
            (if known n then remove_first (λ x, bool_decide (x = n)) l else l)
      end
  end.

Definition unknown_neighbors (ai : MinesweeperAI) (c : cell) : list cell :=
  let nieghbors := get_neighbors ai c in
  unknown_from (λ n, bool_decide (n ∈ mines ai ∨ n ∈ safes ai))
    (length nieghbors) 0 nieghbors.

(** [itertools.combinations(pool, 2)]: the pairs of positions [i < j] of a
    snapshot of the list, in lexicographic order. *)
Fixpoint combinations2 {A} (pool : list A) : list (A * A) :=
  match pool with
  | [] => []
  | x :: pool' => (pair x <$> pool') ++ combinations2 pool'
  end.

(** The sentence [add_knowledge] builds for the revealed cell, read in the
    state reached after the cell has been marked safe. *)
Definition observed_sentence (ai : MinesweeperAI) (c : cell) (n : Z) : Sentence :=
  {| cells := list_to_set (unknown_neighbors ai c);
     count := n - mines_in_neighbors ai c |}.

(** The state in which [add_knowledge] reads the neighbours. *)
Definition add_knowledge_marked (c : cell) (ai : MinesweeperAI) : MinesweeperAI :=
  mark_safe c (set_moves_made (λ m, {[c]} ∪ m) ai).

(** The state after the new sentence has been appended, before the loops. *)
Definition add_knowledge_appended (c : cell) (n : Z) (ai : MinesweeperAI)
    : MinesweeperAI :=
  let ai := add_knowledge_marked c ai in
  append_sentence (observed_sentence ai c n) ai.

Section WithSetIter.
Context {order : SetIter}.

(** [for cell in sentence.cells.copy(): self.mark_mine(cell)]; the argument
    is the value of the sentence when the loop starts (the copy). *)
Definition mark_all_mines (s : Sentence) (ai : MinesweeperAI) : MinesweeperAI :=
  foldl (λ ai c, mark_mine c ai) ai (set_iter (cells s)).

Definition mark_all_safe (s : Sentence) (ai : MinesweeperAI) : MinesweeperAI :=
  foldl (λ ai c, mark_safe c ai) ai (set_iter (cells s)).

(** The body of the first loop of [add_knowledge]. *)
Definition resolve_body (r : ref) (ai : MinesweeperAI) : MinesweeperAI :=
  let s := deref ai r in
  if bool_decide (len_cells s = 0 ∨ count s < 0) then knowledge_remove s ai
  else if decide (count s = 0) then mark_all_safe s ai
  else if decide (count s = len_cells s) then mark_all_mines s ai
  else ai.

Definition resolve_pass (ai : MinesweeperAI) : MinesweeperAI :=
  for_knowledge resolve_body ai.

(** [if new_sentence not in self.knowledge: ...] *)
Definition derive (new_sentence : Sentence) (ai : MinesweeperAI) : MinesweeperAI :=
  if decide (new_sentence ∈ sentences ai) then ai
  else if decide (count new_sentence = 0) then mark_all_safe new_sentence ai
  else append_sentence new_sentence ai.

(** The body of the second loop of [add_knowledge]; [p] is a pair of the
    objects the tuple of [itertools.combinations] holds, read as they are
    now. *)
Definition combine_body (ai : MinesweeperAI) (p : ref * ref) : MinesweeperAI :=
  let sentence1 := deref ai p.1 in
  let sentence2 := deref ai p.2 in
  if decide (len_cells sentence1 = len_cells sentence2) then ai
  else if decide (cells sentence1 ⊆ cells sentence2) then
    derive {| cells := cells sentence2 ∖ cells sentence1;
              count := count sentence2 - count sentence1 |} ai
  else if decide (cells sentence2 ⊆ cells sentence1) then
    derive {| cells := cells sentence1 ∖ cells sentence2;
              count := count sentence1 - count sentence2 |} ai
  else ai.

Definition combine_pass (ai : MinesweeperAI) : MinesweeperAI :=
  foldl combine_body ai (combinations2 (knowledge ai)).

(** [add_knowledge]; [print_info] only prints. *)
Definition add_knowledge (c : cell) (n : Z) (ai : MinesweeperAI) : MinesweeperAI :=
  combine_pass (resolve_pass (add_knowledge_appended c n ai)).

(** [make_safe_move]: the first cell of [self.safes], in iteration order,
    that was not played and is not a known mine.  The method is given the
    state and hands it back: it assigns to nothing. *)
Definition make_safe_move (ai : MinesweeperAI) : option cell * MinesweeperAI :=
  (head (filter (λ c, (c ∉ moves_made ai) ∧ (c ∉ mines ai)) (set_iter (safes ai))),
   ai).

End WithSetIter.

(** ** Random moves

    The generator is an oracle: [gen k] is the raw value behind the [k]-th
    call to [random.randint], which maps it into the closed range asked for
    and raises [ValueError] on an empty range. *)
Definition randint (gen : nat → Z) (k : nat) (a b : Z) : option Z :=
  if decide (b < a) then None else Some (a + gen k `mod` (b - a + 1)).

(** What a call of [make_random_move] can do. *)
Inductive outcome : Type :=
  | Raise                       (* ValueError from [random.randint] *)
  | Return (move : option cell).

(** [for _ in range(...)]: [left] iterations remain, [attempts] samples have
    been drawn, each with two calls to the generator.  The result comes with
    the number of sampling attempts made. *)
Fixpoint sample_from (gen : nat → Z) (left : nat) (attempts : nat)
    (ai : MinesweeperAI) : outcome * nat :=
  match left with
  | O => (Return None, attempts)
  | S left' =>
      match randint gen (2 * attempts) 0 (height ai - 1),
            randint gen (2 * attempts + 1) 0 (width ai - 1) with
      | Some i, Some j =>
          let random_move := (i, j) in
          if bool_decide ((random_move ∉ moves_made ai) ∧ (random_move ∉ mines ai))
          then (Return (Some random_move), S attempts)
          else sample_from gen left' (S attempts) ai
      | _, _ => (Raise, S attempts)
      end
  end.

(** [range(n)] runs [n] times, and not at all when [n <= 0].  The method is
    given the state and hands it back: it assigns to nothing. *)
Definition make_random_move (gen : nat → Z) (ai : MinesweeperAI)
    : outcome * nat * MinesweeperAI :=
  (sample_from gen (Z.to_nat (height ai * width ai * 10)) 0 ai, ai).

(** ** The board, [class Minesweeper]

    Only what the reasoning needs: the dimensions, where the mines are, and
    the count the board reports for a revealed cell. *)
Module Minesweeper.

Record t : Type := mk { height : Z; width : Z; mines : gset cell }.

Definition is_mine (g : t) (c : cell) : bool := bool_decide (c ∈ mines g).

Definition nearby_mines (g : t) (c : cell) : Z :=
  foldl (λ count i,
    foldl (λ count j,
      if bool_decide ((i, j) = c) then count
      else if bool_decide (0 ≤ i < height g ∧ 0 ≤ j < width g)
      then (if bool_decide ((i, j) ∈ mines g) then count + 1 else count)
      else count) count (around c.2)) 0 (around c.1).

End Minesweeper.

(** One turn of a game: the cell is revealed and the AI is told the count the
    board reports for it. *)
Definition reveal `{SetIter} (g : Minesweeper.t) (ai : MinesweeperAI) (c : cell)
    : MinesweeperAI :=
  add_knowledge c (Minesweeper.nearby_mines g c) ai.

(** A game played from the start: the cells revealed, in order. *)
Definition play `{SetIter} (g : Minesweeper.t) (revealed : list cell) : MinesweeperAI :=
  foldl (reveal g) (init (Minesweeper.height g) (Minesweeper.width g)) revealed.

(** ** Sequences of public operations *)

Inductive operation : Type :=
  | AddKnowledge (c : cell) (n : Z)
  | MarkMine (c : cell)
  | MarkSafe (c : cell)
  | MakeSafeMove
  | MakeRandomMove (gen : nat → Z).

Definition perform `{SetIter} (ai : MinesweeperAI) (op : operation) : MinesweeperAI :=
  match op with
  | AddKnowledge c n => add_knowledge c n ai
  | MarkMine c => mark_mine c ai
  | MarkSafe c => mark_safe c ai
  | MakeSafeMove => (make_safe_move ai).2
  | MakeRandomMove gen => (make_random_move gen ai).2
  end.

Definition perform_all `{SetIter} (ai : MinesweeperAI) (ops : list operation)
    : MinesweeperAI :=
  foldl perform ai ops.

(** * Notions used in the statements *)

(** Everything of the AI but the knowledge base. *)
Definition facts (ai : MinesweeperAI) : Z * Z * gset cell * gset cell * gset cell :=
  (height ai, width ai, moves_made ai, mines ai, safes ai).

(** The three known sets of [ai'] contain those of [ai]. *)
Definition grows (ai ai' : MinesweeperAI) : Prop :=
  moves_made ai ⊆ moves_made ai' ∧ mines ai ⊆ mines ai' ∧ safes ai ⊆ safes ai'.

(** A loop body that never lengthens [self.knowledge]. *)
Definition shrinking (body : ref → MinesweeperAI → MinesweeperAI) : Prop :=
  ∀ r ai, (length (knowledge (body r ai)) ≤ length (knowledge ai))%nat.

(** Every cell of the board was played or is a known mine. *)
Definition exhausted (ai : MinesweeperAI) : Prop :=
  ∀ i j, 0 ≤ i < height ai → 0 ≤ j < width ai →
    (i, j) ∈ moves_made ai ∨ (i, j) ∈ mines ai.

(** [mark_mine] and [mark_safe] add the cell to their set without looking at
    the other one.  An operation is a consistent mark when it is not
    [add_knowledge] and does not mark a cell the other set holds. *)
Definition consistent_mark (ai : MinesweeperAI) (op : operation) : Prop :=
  match op with
  | AddKnowledge _ _ => False
  | MarkMine c => c ∉ safes ai
  | MarkSafe c => c ∉ mines ai
  | MakeSafeMove | MakeRandomMove _ => True
  end.

Fixpoint consistent_marks `{SetIter} (ai : MinesweeperAI) (ops : list operation)
    : Prop :=
  match ops with
  | [] => True
  | op :: ops => consistent_mark ai op ∧ consistent_marks (perform ai op) ops
  end.

(** ** The iteration order of sets

    The methods depend on a [SetIter] only through the lists it returns, and
    on a set with at most one element every [SetIter] returns the same list.
    [small_first o] answers such sets itself and asks [o] for the others: a
    run that only iterates sets of at most one cell can be computed whatever
    the order of iteration is. *)

Definition same_iter (o1 o2 : SetIter) : Prop :=
  ∀ s, @set_iter o1 s = @set_iter o2 s.

Definition iter_small (o : SetIter) (s : gset cell) : list cell :=
  match elements s with
  | [] => []
  | [c] => [c]
  | _ => @set_iter o s
  end.

Definition small_first (o : SetIter) : SetIter.
Proof.
  refine {| set_iter := iter_small o |}.
  intros s. unfold iter_small. pose proof (@set_iter_perm o s) as Hperm.
  destruct (elements s) as [|c [|c' l]]; [done|done|exact Hperm].
Defined.

(** ** Boards and states of the examples

    The games are played with the counts the board reports ([play]). *)

(** The two sentences of the subset-resolution example, and an 8×8 AI that
    knows them and nothing else. *)
Definition sentence_A : Sentence := {| cells := {[(1, 1); (1, 2)]}; count := 1 |}.
Definition sentence_B : Sentence :=
  {| cells := {[(1, 1); (1, 2); (1, 3)]}; count := 2 |}.

Definition knows_A_B : MinesweeperAI :=
  append_sentence sentence_B (append_sentence sentence_A (init 8 8)).

(** A 3×3 board with mines at (0,2), (1,0) and (2,2), and four cells to
    reveal on it. *)
Definition board_corners : Minesweeper.t :=
  Minesweeper.mk 3 3 {[(0, 2); (1, 0); (2, 2)]}.

Definition corners_revealed : list cell := [(2, 1); (2, 0); (1, 2); (1, 1)].

(** A 2×2 board with its mine at (1,1). *)
Definition board_2x2 : Minesweeper.t := Minesweeper.mk 2 2 {[(1, 1)]}.

(** A 1×4 board with its mine at (0,0). *)
Definition board_row : Minesweeper.t := Minesweeper.mk 1 4 {[(0, 0)]}.

(** A 2×3 board with its mine at (1,1). *)
Definition board_2x3 : Minesweeper.t := Minesweeper.mk 2 3 {[(1, 1)]}.

(** A 3×3 board with its mine at (1,1). *)
Definition board_centre : Minesweeper.t := Minesweeper.mk 3 3 {[(1, 1)]}.

(** A 1×1 board whose only cell was played. *)
Definition played_1x1 : MinesweeperAI :=
  set_moves_made (λ _, {[(0, 0)]}) (init 1 1).

(** ** Notions of the further properties *)

(** No [Sentence] object is twice in [self.knowledge], and every element of
    the list is an object that was created. *)
Definition well_formed (ai : MinesweeperAI) : Prop :=
  NoDup (knowledge ai) ∧
  Forall (λ r, (r < length (objects ai))%nat) (knowledge ai).

(** The loop body that [mark_mine] and [mark_safe] share, for a method [f]
    of [Sentence]. *)
Definition marking (f : Sentence → Sentence) (r : ref) (ai : MinesweeperAI)
    : MinesweeperAI :=
  let s := f (deref ai r) in
  let ai := update r s ai in
  if decide (len_cells s = 0) then knowledge_remove s ai else ai.

(** [ai'] has the dimensions and the played cells of [ai]. *)
Definition same_board (ai ai' : MinesweeperAI) : Prop :=
  height ai' = height ai ∧ width ai' = width ai ∧ moves_made ai' = moves_made ai.

(** * Properties *)

(** ** What the loops leave alone *)

Lemma for_knowledge_from_preserves (P : MinesweeperAI → Prop) body :
  (∀ r ai, P ai → P (body r ai)) →
  ∀ fuel i ai, P ai → P (for_knowledge_from body fuel i ai).
Proof.
  intros Hbody fuel. induction fuel as [|fuel IH]; intros i ai HP; simpl; [done|].
  destruct (knowledge ai !! i); [|done]. apply IH, Hbody, HP.
Qed.

Lemma for_knowledge_preserves (P : MinesweeperAI → Prop) body ai :
  (∀ r ai, P ai → P (body r ai)) → P ai → P (for_knowledge body ai).
Proof. intros Hbody HP. unfold for_knowledge. by apply for_knowledge_from_preserves. Qed.

Lemma facts_update r s ai : facts (update r s ai) = facts ai.
Proof. done. Qed.

Lemma facts_knowledge_remove s ai : facts (knowledge_remove s ai) = facts ai.
Proof. done. Qed.

Lemma facts_append_sentence s ai : facts (append_sentence s ai) = facts ai.
Proof. done. Qed.

Lemma facts_mark_mine_body c r ai : facts (mark_mine_body c r ai) = facts ai.
Proof. unfold mark_mine_body. by case_decide. Qed.

Lemma facts_mark_safe_body c r ai : facts (mark_safe_body c r ai) = facts ai.
Proof. unfold mark_safe_body. by case_decide. Qed.

Lemma facts_mark_mine c ai :
  facts (mark_mine c ai)
  = (height ai, width ai, moves_made ai, {[c]} ∪ mines ai, safes ai).
Proof.
  unfold mark_mine. apply (for_knowledge_preserves (λ ai', facts ai' = _)); [|done].
  intros r ai' <-. apply facts_mark_mine_body.
Qed.

Lemma facts_mark_safe c ai :
  facts (mark_safe c ai)
  = (height ai, width ai, moves_made ai, mines ai, {[c]} ∪ safes ai).
Proof.
  unfold mark_safe. apply (for_knowledge_preserves (λ ai', facts ai' = _)); [|done].
  intros r ai' <-. apply facts_mark_safe_body.
Qed.

(** ** The known sets only grow *)

#[global] Instance grows_preorder : PreOrder grows.
Proof.
  split.
  - by intros ai.
  - intros a b c (?&?&?) (?&?&?). repeat split; by etrans.
Qed.

Lemma grows_facts ai ai' : facts ai' = facts ai → grows ai ai'.
Proof. unfold facts, grows. intros [= _ _ Hv Hm Hs]. by rewrite Hv, Hm, Hs. Qed.

Lemma grows_mark_mine c ai : grows ai (mark_mine c ai).
Proof.
  pose proof (facts_mark_mine c ai) as [= _ _ Hv Hm Hs].
  unfold grows. rewrite Hv, Hm, Hs. clear. set_solver.
Qed.

Lemma grows_mark_safe c ai : grows ai (mark_safe c ai).
Proof.
  pose proof (facts_mark_safe c ai) as [= _ _ Hv Hm Hs].
  unfold grows. rewrite Hv, Hm, Hs. clear. set_solver.
Qed.

Lemma grows_foldl {A} (f : MinesweeperAI → A → MinesweeperAI) (l : list A) ai :
  (∀ ai x, grows ai (f ai x)) → grows ai (foldl f ai l).
Proof.
  intros Hf. revert ai. induction l as [|x l IH]; intros ai; simpl; [done|].
  etrans; [apply (Hf ai x)|apply IH].
Qed.

Lemma grows_for_knowledge body ai :
  (∀ r ai, grows ai (body r ai)) → grows ai (for_knowledge body ai).
Proof.
  intros Hbody. apply (for_knowledge_preserves (grows ai)); [|done].
  intros r ai' Hai'. etrans; [exact Hai'|apply Hbody].
Qed.

Section GrowsWithSetIter.
Context {order : SetIter}.

Lemma grows_mark_all_mines s ai : grows ai (mark_all_mines s ai).
Proof. apply grows_foldl. intros. apply grows_mark_mine. Qed.

Lemma grows_mark_all_safe s ai : grows ai (mark_all_safe s ai).
Proof. apply grows_foldl. intros. apply grows_mark_safe. Qed.

Lemma grows_resolve_body r ai : grows ai (resolve_body r ai).
Proof.
  unfold resolve_body. case_bool_decide; [by apply grows_facts|].
  repeat case_decide;
    auto using grows_mark_all_safe, grows_mark_all_mines, grows_facts.
Qed.

Lemma grows_derive s ai : grows ai (derive s ai).
Proof.
  unfold derive. repeat case_decide;
    auto using grows_mark_all_safe, grows_facts, facts_append_sentence.
Qed.

Lemma grows_combine_body ai p : grows ai (combine_body ai p).
Proof.
  unfold combine_body. repeat case_decide; auto using grows_derive, grows_facts.
Qed.

Lemma grows_add_knowledge c n ai : grows ai (add_knowledge c n ai).
Proof.
  unfold add_knowledge, combine_pass, resolve_pass, add_knowledge_appended,
    add_knowledge_marked.
  etrans; [|apply grows_foldl, grows_combine_body].
  etrans; [|apply grows_for_knowledge, grows_resolve_body].
  etrans; [|by apply grows_facts, facts_append_sentence].
  etrans; [|apply grows_mark_safe].
  unfold grows; simpl. set_solver.
Qed.

Lemma grows_perform ai op : grows ai (perform ai op).
Proof.
  destruct op; simpl;
    auto using grows_add_knowledge, grows_mark_mine, grows_mark_safe, grows_facts.
Qed.

End GrowsWithSetIter.

(** ** The loops stop because the list is exhausted

    [for_knowledge_from] and [unknown_from] recurse on a bound; the Python
    loops stop when the index passes the end of the list.  The bodies used in
    this file never lengthen the list, so the length at entry is bound enough:
    a larger bound changes nothing. *)

Lemma length_remove_first {A} (p : A → bool) (l : list A) :
  (length (remove_first p l) ≤ length l)%nat.
Proof. induction l as [|x l IH]; simpl; [done|]. destruct (p x); simpl; lia. Qed.

Lemma for_knowledge_from_fuel body fuel extra i ai :
  shrinking body →
  (length (knowledge ai) ≤ i + fuel)%nat →
  for_knowledge_from body (fuel + extra) i ai = for_knowledge_from body fuel i ai.
Proof.
  intros Hbody. revert i ai. induction fuel as [|fuel IH]; intros i ai Hlen.
  - destruct extra as [|extra]; simpl; [done|].
    rewrite lookup_ge_None_2 by lia. done.
  - simpl. destruct (knowledge ai !! i) as [r|]; [|done].
    apply IH. specialize (Hbody r ai). lia.
Qed.

Lemma for_knowledge_fuel body extra ai :
  shrinking body →
  for_knowledge_from body (length (knowledge ai) + extra) 0 ai = for_knowledge body ai.
Proof. intros Hbody. apply for_knowledge_from_fuel; [done|lia]. Qed.

Lemma for_knowledge_shrinks body ai :
  shrinking body →
  (length (knowledge (for_knowledge body ai)) ≤ length (knowledge ai))%nat.
Proof.
  intros Hbody.
  apply (for_knowledge_preserves
    (λ ai', (length (knowledge ai') ≤ length (knowledge ai))%nat)); [|done].
  intros r ai' Hai'. specialize (Hbody r ai'). lia.
Qed.

Lemma length_knowledge_remove s ai :
  (length (knowledge (knowledge_remove s ai)) ≤ length (knowledge ai))%nat.
Proof. apply length_remove_first. Qed.

Lemma shrinking_mark_mine_body c : shrinking (mark_mine_body c).
Proof.
  intros r ai. unfold mark_mine_body. case_decide; [|done].
  apply (length_knowledge_remove _ (update r _ ai)).
Qed.

Lemma shrinking_mark_safe_body c : shrinking (mark_safe_body c).
Proof.
  intros r ai. unfold mark_safe_body. case_decide; [|done].
  apply (length_knowledge_remove _ (update r _ ai)).
Qed.

Lemma mark_mine_shrinks c ai :
  (length (knowledge (mark_mine c ai)) ≤ length (knowledge ai))%nat.
Proof. apply (for_knowledge_shrinks _ (set_mines _ ai)), shrinking_mark_mine_body. Qed.

Lemma mark_safe_shrinks c ai :
  (length (knowledge (mark_safe c ai)) ≤ length (knowledge ai))%nat.
Proof. apply (for_knowledge_shrinks _ (set_safes _ ai)), shrinking_mark_safe_body. Qed.

Lemma foldl_shrinks {A} (f : MinesweeperAI → A → MinesweeperAI) (l : list A) ai :
  (∀ ai x, (length (knowledge (f ai x)) ≤ length (knowledge ai))%nat) →
  (length (knowledge (foldl f ai l)) ≤ length (knowledge ai))%nat.
Proof.
  intros Hf. revert ai. induction l as [|x l IH]; intros ai; simpl; [done|].
  specialize (IH (f ai x)). specialize (Hf ai x). lia.
Qed.

Lemma shrinking_resolve_body `{SetIter} : shrinking resolve_body.
Proof.
  intros r ai. unfold resolve_body.
  case_bool_decide; [apply length_knowledge_remove|].
  repeat case_decide; [| |done].
  - apply foldl_shrinks. intros. apply mark_safe_shrinks.
  - apply foldl_shrinks. intros. apply mark_mine_shrinks.
Qed.

(** The three loops over [self.knowledge], with any larger bound. *)
Lemma mark_mine_fuel c extra ai :
  let ai' := set_mines (λ m, {[c]} ∪ m) ai in
  for_knowledge_from (mark_mine_body c) (length (knowledge ai') + extra) 0 ai'
  = mark_mine c ai.
Proof. apply for_knowledge_fuel, shrinking_mark_mine_body. Qed.

Lemma mark_safe_fuel c extra ai :
  let ai' := set_safes (λ m, {[c]} ∪ m) ai in
  for_knowledge_from (mark_safe_body c) (length (knowledge ai') + extra) 0 ai'
  = mark_safe c ai.
Proof. apply for_knowledge_fuel, shrinking_mark_safe_body. Qed.

Lemma resolve_pass_fuel `{SetIter} extra ai :
  for_knowledge_from resolve_body (length (knowledge ai) + extra) 0 ai
  = resolve_pass ai.
Proof. apply for_knowledge_fuel, shrinking_resolve_body. Qed.

Lemma unknown_from_fuel known fuel extra i l :
  (length l ≤ i + fuel)%nat →
  unknown_from known (fuel + extra) i l = unknown_from known fuel i l.
Proof.
  revert i l. induction fuel as [|fuel IH]; intros i l Hlen.
  - destruct extra as [|extra]; simpl; [done|].
    rewrite lookup_ge_None_2 by lia. done.
  - simpl. destruct (l !! i) as [n|]; [|done].
    apply IH. destruct (known n); [|lia].
    pose proof (length_remove_first (λ x, bool_decide (x = n)) l). lia.
Qed.

(** ** Runs under two orders that return the same lists *)

Lemma for_knowledge_ext body1 body2 ai :
  (∀ r ai, body1 r ai = body2 r ai) →
  for_knowledge body1 ai = for_knowledge body2 ai.
Proof.
  intros Hbody. unfold for_knowledge. generalize (length (knowledge ai)) 0%nat.
  intros fuel. revert ai. induction fuel as [|fuel IH]; intros ai i; simpl; [done|].
  destruct (knowledge ai !! i); [|done]. rewrite Hbody. apply IH.
Qed.

Lemma foldl_ext_all {A B} (f g : A → B → A) (l : list B) a :
  (∀ a b, f a b = g a b) → foldl f a l = foldl g a l.
Proof.
  intros Hfg. revert a. induction l as [|b l IH]; intros a; simpl; [done|].
  rewrite Hfg. apply IH.
Qed.

Section SameIter.
Context (o1 o2 : SetIter) (Hsame : same_iter o1 o2).

Lemma mark_all_mines_ext s ai : @mark_all_mines o1 s ai = @mark_all_mines o2 s ai.
Proof. unfold mark_all_mines. by rewrite Hsame. Qed.

Lemma mark_all_safe_ext s ai : @mark_all_safe o1 s ai = @mark_all_safe o2 s ai.
Proof. unfold mark_all_safe. by rewrite Hsame. Qed.

Lemma resolve_body_ext r ai : @resolve_body o1 r ai = @resolve_body o2 r ai.
Proof.
  unfold resolve_body. by rewrite mark_all_mines_ext, mark_all_safe_ext.
Qed.

Lemma derive_ext s ai : @derive o1 s ai = @derive o2 s ai.
Proof. unfold derive. by rewrite mark_all_safe_ext. Qed.

Lemma combine_body_ext ai p : @combine_body o1 ai p = @combine_body o2 ai p.
Proof. unfold combine_body. by rewrite !derive_ext. Qed.

Lemma add_knowledge_ext c n ai : @add_knowledge o1 c n ai = @add_knowledge o2 c n ai.
Proof.
  unfold add_knowledge, combine_pass, resolve_pass.
  rewrite (for_knowledge_ext _ _ _ resolve_body_ext).
  apply foldl_ext_all, combine_body_ext.
Qed.

Lemma play_ext g revealed : @play o1 g revealed = @play o2 g revealed.
Proof.
  unfold play, reveal. apply foldl_ext_all. intros. apply add_knowledge_ext.
Qed.

End SameIter.

Lemma iter_small_eq o s : iter_small o s = @set_iter o s.
Proof.
  unfold iter_small. pose proof (@set_iter_perm o s) as Hperm.
  destruct (elements s) as [|c [|c' l]]; [| |done].
  - by apply Permutation_nil_r in Hperm.
  - by apply Permutation_singleton_r in Hperm.
Qed.

Lemma same_iter_small_first o : same_iter o (small_first o).
Proof. intros s. symmetry. apply iter_small_eq. Qed.

(** Rewrites a goal about a run under an arbitrary order into the same goal
    under [small_first], which computes. *)
Ltac any_order o :=
  try rewrite (play_ext o (small_first o) (same_iter_small_first o));
  try rewrite !(add_knowledge_ext o (small_first o) (same_iter_small_first o)).

(** Membership in the list a set is iterated as. *)
Lemma elem_of_set_iter `{SetIter} (c : cell) (s : gset cell) :
  c ∈ set_iter s ↔ c ∈ s.
Proof. rewrite set_iter_perm. apply elem_of_elements. Qed.

(** ** Neighbours *)

Lemma elem_of_around a i : i ∈ around a ↔ a - 1 ≤ i ≤ a + 1.
Proof. unfold around. rewrite !elem_of_cons, elem_of_nil. lia. Qed.

(** [get_neighbors]: the cells of the board at distance at most one in each
    coordinate, the cell itself excluded. *)
Lemma elem_of_get_neighbors ai c n :
  n ∈ get_neighbors ai c ↔
  c.1 - 1 ≤ n.1 ≤ c.1 + 1 ∧ c.2 - 1 ≤ n.2 ≤ c.2 + 1 ∧
  0 ≤ n.1 < height ai ∧ 0 ≤ n.2 < width ai ∧ n ≠ c.
Proof.
  unfold get_neighbors. rewrite list_elem_of_bind. split.
  - intros (i & Hn & Hi). apply list_elem_of_bind in Hn as (j & Hn & Hj).
    apply elem_of_around in Hi, Hj.
    case_bool_decide as Hin; [|by apply elem_of_nil in Hn].
    apply list_elem_of_singleton in Hn as ->. cbn [fst snd]. intuition lia.
  - intros (Hi & Hj & Hh & Hw & Hne). destruct n as [i j]; cbn [fst snd] in *.
    exists i. split; [|by apply elem_of_around].
    apply list_elem_of_bind. exists j. split; [|by apply elem_of_around].
    rewrite bool_decide_eq_true_2 by done. by apply list_elem_of_singleton.
Qed.

Lemma elem_of_remove_first {A} (p : A → bool) (l : list A) (x : A) :
  x ∈ remove_first p l → x ∈ l.
Proof.
  induction l as [|y l IH]; simpl; [done|].
  destruct (p y); rewrite !elem_of_cons; [by right|]. intros [->|Hx]; auto.
Qed.

(** [unknown_neighbors] returns neighbours only. *)
Lemma elem_of_unknown_neighbors ai c n :
  n ∈ unknown_neighbors ai c → n ∈ get_neighbors ai c.
Proof.
  unfold unknown_neighbors. generalize (length (get_neighbors ai c)) 0%nat.
  generalize (get_neighbors ai c). intros l fuel. revert l.
  induction fuel as [|fuel IH]; intros l i; simpl; [done|].
  destruct (l !! i) as [x|]; [|done]. intros Hn%IH.
  destruct (bool_decide _); [by eapply elem_of_remove_first|done].
Qed.

(** ** Moves *)

(** C8. [make_safe_move] hands the state back as it got it; the cell it
    returns is in [safes], not in [moves_made] and not in [mines]; it returns
    [None] only when no such cell exists.  This holds whatever the iteration
    order of [self.safes] is. *)
Theorem make_safe_move_reads_only (o : SetIter) (ai : MinesweeperAI) :
  (make_safe_move ai).2 = ai ∧
  match (make_safe_move ai).1 with
  | Some c => c ∈ safes ai ∧ (c ∉ moves_made ai) ∧ (c ∉ mines ai)
  | None => ∀ c, c ∈ safes ai → c ∈ moves_made ai ∨ c ∈ mines ai
  end.
Proof.
  split; [done|]. unfold make_safe_move; simpl.
  destruct (head _) as [c|] eqn:Hhead.
  - apply head_Some_elem_of, list_elem_of_filter in Hhead as [[Hmoves Hmines] Hsafe].
    by apply elem_of_set_iter in Hsafe.
  - apply head_None in Hhead. intros c Hsafe.
    destruct (decide (c ∈ moves_made ai)) as [|Hmoves]; [by left|].
    destruct (decide (c ∈ mines ai)) as [|Hmines]; [by right|].
    apply elem_of_set_iter in Hsafe.
    by destruct (filter_nil_not_elem_of _ _ c Hhead).
Qed.

Lemma randint_in_range gen k a b :
  a ≤ b → ∃ z, randint gen k a b = Some z ∧ a ≤ z ≤ b.
Proof.
  intros Hab. unfold randint. case_decide; [lia|].
  eexists; split; [done|].
  pose proof (Z.mod_pos_bound (gen k) (b - a + 1)). lia.
Qed.

Lemma sample_from_spec gen left attempts ai :
  1 ≤ height ai → 1 ≤ width ai →
  ∃ r n, sample_from gen left attempts ai = (Return r, n) ∧
    (n ≤ attempts + left)%nat ∧
    match r with
    | Some c => (c ∉ moves_made ai) ∧ (c ∉ mines ai)
    | None => n = (attempts + left)%nat
    end ∧
    (exhausted ai → r = None).
Proof.
  intros Hh Hw. revert attempts.
  induction left as [|left IH]; intros attempts; cbn [sample_from].
  - exists None, attempts. repeat split; [lia|lia].
  - destruct (randint_in_range gen (2 * attempts) 0 (height ai - 1))
      as (i & -> & Hi); [lia|].
    destruct (randint_in_range gen (2 * attempts + 1) 0 (width ai - 1))
      as (j & -> & Hj); [lia|].
    case_bool_decide as Hfree.
    + exists (Some (i, j)), (S attempts). repeat split; [lia|tauto|tauto|].
      intros Hfull. destruct (Hfull i j) as [?|?]; [lia|lia|tauto|tauto].
    + destruct (IH (S attempts)) as (r & n & -> & Hn & Hr & Hfull).
      exists r, n. repeat split; [lia| |done].
      destruct r; [done|lia].
Qed.

(** C9. On a board ([height], [width] at least 1) [make_random_move] returns
    after at most [height * width * 10] sampling attempts, with the state as
    it got it; a cell it returns is neither played nor a known mine; when it
    returns [None] it has made all [height * width * 10] attempts; and when
    every cell of the board is played or a known mine it returns [None]. *)
Theorem make_random_move_bounded (gen : nat → Z) (ai : MinesweeperAI) :
  1 ≤ height ai → 1 ≤ width ai →
  ∃ r n, make_random_move gen ai = (Return r, n, ai) ∧
    Z.of_nat n ≤ height ai * width ai * 10 ∧
    match r with
    | Some c => (c ∉ moves_made ai) ∧ (c ∉ mines ai)
    | None => Z.of_nat n = height ai * width ai * 10
    end ∧
    (exhausted ai → r = None).
Proof.
  intros Hh Hw. unfold make_random_move.
  destruct (sample_from_spec gen (Z.to_nat (height ai * width ai * 10)) 0 ai Hh Hw)
    as (r & n & -> & Hn & Hr & Hfull).
  exists r, n. repeat split; [nia| |done].
  destruct r; [done|nia].
Qed.

Lemma make_random_move_bounded_witness :
  1 ≤ height played_1x1 ∧ 1 ≤ width played_1x1 ∧ exhausted played_1x1 ∧
  make_random_move (λ _, 0) played_1x1 = (Return None, 10%nat, played_1x1).
Proof.
  assert (exhausted played_1x1) as Hall.
  { intros i j Hi Hj. left. simpl in *.
    replace i with 0 by lia. replace j with 0 by lia. by apply elem_of_singleton. }
  split; [simpl; lia|]. split; [simpl; lia|]. split; [exact Hall|].
  destruct (make_random_move_bounded (λ _, 0) played_1x1)
    as (r & n & -> & _ & Hr & Hnone); [simpl; lia|simpl; lia|].
  rewrite (Hnone Hall) in Hr |- *. simpl in Hr.
  by replace n with 10%nat by lia.
Defined.

(** ** Invariants of the known sets *)

(** C10. No operation removes a cell from [moves_made], [mines] or [safes]:
    after any sequence of public operations each of the three sets contains
    what it contained before. *)
Theorem known_sets_never_shrink (o : SetIter) (ai : MinesweeperAI)
    (ops : list operation) :
  moves_made ai ⊆ moves_made (perform_all ai ops) ∧
  mines ai ⊆ mines (perform_all ai ops) ∧
  safes ai ⊆ safes (perform_all ai ops).
Proof. apply (grows_foldl perform ops ai), grows_perform. Qed.

Lemma disjoint_perform `{SetIter} ai op :
  mines ai ∩ safes ai = ∅ → consistent_mark ai op →
  mines (perform ai op) ∩ safes (perform ai op) = ∅.
Proof.
  intros Hdisj Hop. destruct op as [c n|c|c| |gen]; simpl in *; [done| | |done|done].
  - pose proof (facts_mark_mine c ai) as [= _ _ _ Hm Hs]. rewrite Hm, Hs.
    revert Hdisj Hop. clear. set_unfold.
    intros Hdisj Hc x [[->|Hm] Hs]; [done|by apply (Hdisj x)].
  - pose proof (facts_mark_safe c ai) as [= _ _ _ Hm Hs]. rewrite Hm, Hs.
    revert Hdisj Hop. clear. set_unfold.
    intros Hdisj Hc x [Hm [->|Hs]]; [done|by apply (Hdisj x)].
Qed.

(** C3, as the code has it.  From a state whose [mines] and [safes] are
    disjoint, [mines ∩ safes = ∅] holds after every sequence of [mark_mine],
    [mark_safe], [make_safe_move] and [make_random_move] in which no cell is
    marked a mine while in [safes], nor safe while in [mines]. *)
Theorem disjoint_after_consistent_marks (o : SetIter) (ai : MinesweeperAI)
    (ops : list operation) :
  mines ai ∩ safes ai = ∅ → consistent_marks ai ops →
  mines (perform_all ai ops) ∩ safes (perform_all ai ops) = ∅.
Proof.
  revert ai. induction ops as [|op ops IH]; intros ai Hdisj Hops; simpl; [done|].
  destruct Hops as [Hop Hops]. apply IH; [|done]. by apply disjoint_perform.
Qed.

Lemma disjoint_after_consistent_marks_witness :
  let ai := init 8 8 in
  let ops := [MarkMine (0, 0); MarkSafe (1, 1); MakeSafeMove; MarkMine (0, 0)] in
  mines ai ∩ safes ai = ∅ ∧ @consistent_marks elements_iter ai ops ∧
  mines (@perform_all elements_iter ai ops)
    ∩ safes (@perform_all elements_iter ai ops) = ∅.
Proof.
  assert (mines (init 8 8) ∩ safes (init 8 8) = ∅) as Hdisj by (vm_compute; reflexivity).
  assert (@consistent_marks elements_iter (init 8 8)
    [MarkMine (0, 0); MarkSafe (1, 1); MakeSafeMove; MarkMine (0, 0)]) as Hops.
  { simpl. repeat split; vm_compute; discriminate. }
  split; [exact Hdisj|]. split; [exact Hops|].
  exact (disjoint_after_consistent_marks elements_iter _ _ Hdisj Hops).
Defined.

(** C3, as stated, fails: marking one cell a mine and then safe leaves it in
    both sets. *)
Lemma mark_mine_then_mark_safe_overlap :
  let ai := @perform_all elements_iter (init 8 8) [MarkMine (0, 0); MarkSafe (0, 0)] in
  ¬ (mines ai ∩ safes ai = ∅).
Proof.
  intros ai Hdisj. apply (f_equal size) in Hdisj. vm_compute in Hdisj. discriminate.
Qed.

(** ** Games that go wrong

    Each game below is played on a board whose mines are given, with the
    counts the board reports ([play]).  Every set that gets iterated in them
    has one cell, so the statements hold for every iteration order. *)

(** *** Subset resolution *)

(** A reference whose object is not the default one was allocated. *)
Lemma deref_allocated ai r :
  count (deref ai r) ≠ 0 → (r < length (objects ai))%nat.
Proof.
  intros Hcount. destruct (decide (r < length (objects ai))%nat) as [|Hge]; [done|].
  unfold deref in Hcount. rewrite lookup_ge_None_2 in Hcount by lia. done.
Qed.

Lemma deref_append_sentence_old s ai r :
  (r < length (objects ai))%nat → deref (append_sentence s ai) r = deref ai r.
Proof. intros Hr. unfold deref; simpl. by rewrite lookup_app_l. Qed.

Lemma deref_append_sentence_new s ai :
  deref (append_sentence s ai) (length (objects ai)) = s.
Proof. unfold deref; simpl. rewrite lookup_app_r by done. by rewrite Nat.sub_diag. Qed.

(** The second loop of [add_knowledge] on a knowledge base that holds
    [sentence_A] then [sentence_B]: the difference is appended, and nothing
    but the knowledge base changes. *)
Lemma combine_pass_A_B (o : SetIter) (ai : MinesweeperAI) :
  sentences ai = [sentence_A; sentence_B] →
  sentences (combine_pass ai)
    = [sentence_A; sentence_B; {| cells := {[(1, 3)]}; count := 1 |}]
  ∧ facts (combine_pass ai) = facts ai.
Proof.
  unfold sentences. intros Hk.
  destruct (knowledge ai) as [|r1 [|r2 [|r3 k]]] eqn:Hrefs; try discriminate.
  injection Hk as HA HB.
  unfold combine_pass. rewrite Hrefs. simpl.
  unfold combine_body. simpl. rewrite HA, HB.
  rewrite decide_False by (vm_compute; discriminate).
  assert (cells sentence_A ⊆ cells sentence_B) as Hsub.
  { apply (bool_decide_unpack _). vm_compute. exact I. }
  rewrite (decide_True _ _ Hsub).
  replace (cells sentence_B ∖ cells sentence_A) with ({[(1, 3)]} : gset cell)
    by (vm_compute; reflexivity).
  unfold derive, sentences. rewrite Hrefs. simpl. rewrite HA, HB.
  destruct (decide _) as [Hin|_].
  { apply (bool_decide_pack _) in Hin. vm_compute in Hin. destruct Hin. }
  split; [|reflexivity].
  assert (r1 < length (objects ai))%nat as Hr1
    by (apply deref_allocated; rewrite HA; discriminate).
  assert (r2 < length (objects ai))%nat as Hr2
    by (apply deref_allocated; rewrite HB; discriminate).
  change (knowledge (append_sentence ?s ai)) with (knowledge ai ++ [length (objects ai)]).
  rewrite Hrefs. simpl.
  rewrite !deref_append_sentence_old by done.
  by rewrite deref_append_sentence_new, HA, HB.
Qed.

(** C1 fails on the code.  A cell far from the two sentences is revealed,
    with a count that resolves nothing: [add_knowledge (5, 5) 3].  The call
    derives [{(1, 3)}] with count 1 and appends it, and returns with [(1, 3)]
    in no set: the second loop marks cells safe when the derived count is 0
    and has no branch for a derived count equal to the number of cells. *)
Theorem derived_mine_is_not_marked (o : SetIter) :
  let ai := add_knowledge (5, 5) 3 knows_A_B in
  last (sentences ai) = Some {| cells := {[(1, 3)]}; count := 1 |} ∧
  mines ai = ∅ ∧
  safes ai = {[(5, 5)]}.
Proof. cbv zeta. any_order o. vm_compute. repeat split; reflexivity. Qed.

(** *** Negative counts kept

    A 3×3 board with mines at (0,2), (1,0) and (2,2); the cells (2,1), (2,0),
    (1,2), (1,1) are revealed, for which the board reports 2, 1, 2, 3. *)
Lemma corners_reported :
  Minesweeper.nearby_mines board_corners <$> corners_revealed = [2; 1; 2; 3].
Proof. reflexivity. Qed.

(** The knowledge base when the fourth [add_knowledge] returns. *)
Lemma corners_sentences (o : SetIter) :
  sentences (play board_corners corners_revealed)
  = [ {| cells := {[(1, 0)]}; count := 1 |};
      {| cells := {[(0, 1); (0, 2); (2, 2)]}; count := 2 |};
      {| cells := {[(0, 0); (0, 1); (0, 2); (2, 0); (2, 2)]}; count := 1 |};
      {| cells := {[(0, 0); (2, 0)]}; count := -1 |} ].
Proof. any_order o. vm_compute. reflexivity. Qed.

(** C2 fails on the code: after the fourth reveal of that game the knowledge
    base holds [{(0,0), (2,0)}] with count -1. *)
Theorem count_bounds_broken (o : SetIter) :
  ¬ Forall (λ s, 0 ≤ count s ≤ len_cells s)
      (sentences (play board_corners corners_revealed)).
Proof.
  rewrite corners_sentences. intros Hall.
  apply Forall_lookup_1 with (i := 3%nat) (x := {| cells := {[(0, 0); (2, 0)]}; count := -1 |})
    in Hall; [|reflexivity].
  simpl in Hall. lia.
Qed.

(** C5 fails on the code: in the same game a sentence with a negative count
    is in the knowledge base when [add_knowledge] returns.  It was derived by
    the second loop, after the loop that discards such sentences. *)
Theorem invalid_sentence_kept (o : SetIter) :
  Exists (λ s, cells s = ∅ ∨ count s < 0)
    (sentences (play board_corners corners_revealed)).
Proof.
  rewrite corners_sentences. do 3 apply Exists_cons_tl.
  apply Exists_cons_hd. right. simpl. lia.
Qed.

(** *** A proven safe cell in the new sentence

    A 2×2 board with its mine at (1,1); (1,0) and (0,1) are revealed, then
    (0,0); the board reports 1 each time. *)
Lemma board_2x2_reported :
  Minesweeper.nearby_mines board_2x2 <$> [(1, 0); (0, 1); (0, 0)] = [1; 1; 1].
Proof. reflexivity. Qed.

(** C4 fails on the code.  When (0,0) is revealed its neighbours (0,1) and
    (1,0) are both in [safes]; [unknown_neighbors] removes (0,1) from the list
    it is iterating, which moves (1,0) under the index, and the loop goes on
    with (1,1): the sentence appended holds the safe cell (1,0). *)
Theorem observed_sentence_holds_safe_cell (o : SetIter) :
  let before := play board_2x2 [(1, 0); (0, 1)] in
  let marked := add_knowledge_marked (0, 0) before in
  safes marked = {[(0, 0); (0, 1); (1, 0)]} ∧
  mines marked = ∅ ∧
  get_neighbors marked (0, 0) = [(0, 1); (1, 0); (1, 1)] ∧
  unknown_neighbors marked (0, 0) = [(1, 0); (1, 1)] ∧
  last (sentences (add_knowledge_appended (0, 0) 1 before))
  = Some {| cells := {[(1, 0); (1, 1)]}; count := 1 |}.
Proof. cbv zeta. any_order o. vm_compute. repeat split; reflexivity. Qed.

(** *** A sentence with count 0 passed over

    A 1×4 board with its mine at (0,0); (0,1) is revealed, then (0,2); the
    board reports 1, then 0. *)
Lemma board_row_reported :
  Minesweeper.nearby_mines board_row <$> [(0, 1); (0, 2)] = [1; 0].
Proof. reflexivity. Qed.

(** C6 fails on the code.  When the first loop of the second [add_knowledge]
    starts, the knowledge base is [{(0,0)}] with count 1 followed by [{(0,3)}]
    with count 0.  Marking (0,0) a mine empties and removes the first
    sentence, the second one moves to position 0, and the loop, now at
    position 1, ends: [{(0,3)}] with count 0 stays and (0,3) is not safe. *)
Theorem zero_count_sentence_passed_over (o : SetIter) :
  let before := play board_row [(0, 1)] in
  let after := play board_row [(0, 1); (0, 2)] in
  sentences (add_knowledge_appended (0, 2) 0 before)
  = [ {| cells := {[(0, 0)]}; count := 1 |};
      {| cells := {[(0, 3)]}; count := 0 |} ] ∧
  after = add_knowledge (0, 2) 0 before ∧
  sentences after = [ {| cells := {[(0, 3)]}; count := 0 |} ] ∧
  safes after = {[(0, 1); (0, 2)]} ∧
  mines after = {[(0, 0)]}.
Proof.
  cbv zeta. split; [|split; [reflexivity|]];
    any_order o; vm_compute; repeat split; reflexivity.
Qed.

(** *** Marking twice

    On a [Sentence] the second call finds the cell gone. *)
Lemma Sentence_mark_mine_twice c s :
  Sentence.mark_mine c (Sentence.mark_mine c s) = Sentence.mark_mine c s.
Proof.
  unfold Sentence.mark_mine at 2 3. case_decide as Hin.
  - unfold Sentence.mark_mine; simpl. rewrite decide_False; [done|].
    intros [_ Hc]%elem_of_difference. by apply Hc, elem_of_singleton.
  - unfold Sentence.mark_mine. by rewrite decide_False.
Qed.

Lemma Sentence_mark_safe_twice c s :
  Sentence.mark_safe c (Sentence.mark_safe c s) = Sentence.mark_safe c s.
Proof.
  unfold Sentence.mark_safe at 2 3. case_decide as Hin.
  - unfold Sentence.mark_safe; simpl. rewrite decide_False; [done|].
    intros [_ Hc]%elem_of_difference. by apply Hc, elem_of_singleton.
  - unfold Sentence.mark_safe. by rewrite decide_False.
Qed.

(** A 2×3 board with its mine at (1,1); (1,2), (1,0) and (0,1) are revealed;
    the board reports 1 each time. *)
Lemma board_2x3_reported :
  Minesweeper.nearby_mines board_2x3 <$> [(1, 2); (1, 0); (0, 1)] = [1; 1; 1].
Proof. reflexivity. Qed.

(** C7 fails on the code for the AI.  After the three reveals the knowledge
    base holds [{(1,1)}] with count 1 three times.  [mark_mine (1, 1)] empties
    and removes the first, which moves the second under the index; the loop
    goes on with the third and removes it; the second is left as it was.  A
    second [mark_mine (1, 1)] removes it. *)
Theorem mark_mine_twice_differs (o : SetIter) :
  let ai := play board_2x3 [(1, 2); (1, 0); (0, 1)] in
  let once := mark_mine (1, 1) ai in
  let twice := mark_mine (1, 1) once in
  sentences ai = replicate 3 {| cells := {[(1, 1)]}; count := 1 |} ∧
  sentences once = [ {| cells := {[(1, 1)]}; count := 1 |} ] ∧
  sentences twice = [] ∧
  twice ≠ once.
Proof.
  cbv zeta. any_order o. split; [by vm_compute|]. split; [by vm_compute|].
  split; [by vm_compute|].
  intros Heq. apply (f_equal (λ ai, length (knowledge ai))) in Heq.
  vm_compute in Heq. discriminate.
Qed.

(** *** A mine marked safe

    A 3×3 board with its mine at (1,1); (1,0), (2,1), (2,0) and (0,0) are
    revealed; the board reports 1 each time.  When (0,0) is revealed its
    neighbour (1,1) is a known mine; [unknown_neighbors] passes over it (the
    removal of (1,0) moved it under the index), the new sentence is
    [{(0,1), (1,1)}] with count 0, and its cells are marked safe. *)
Lemma board_centre_reported :
  Minesweeper.nearby_mines board_centre <$> [(1, 0); (2, 1); (2, 0); (0, 0)]
  = [1; 1; 1; 1].
Proof. reflexivity. Qed.

Lemma known_mine_marked_safe (o : SetIter) :
  let ai := play board_centre [(1, 0); (2, 1); (2, 0); (0, 0)] in
  mines ai = {[(1, 1)]} ∧ mines ai ∩ safes ai = {[(1, 1)]}.
Proof. cbv zeta. any_order o. vm_compute. split; reflexivity. Qed.

(** * Further properties of the code *)

(** ** Sentences *)

Lemma len_cells_remove c s n :
  c ∈ cells s → len_cells {| cells := cells s ∖ {[c]}; count := n |} = len_cells s - 1.
Proof.
  intros Hin. unfold len_cells; simpl.
  rewrite size_difference by (by apply singleton_subseteq_l).
  rewrite size_singleton.
  assert (size (cells s) ≠ 0)%nat by (by apply size_non_empty_iff, (non_empty_inhabited c)).
  lia.
Qed.

Lemma not_elem_of_remove (c : cell) (X : gset cell) : c ∉ X ∖ {[c]}.
Proof. intros [_ Hc]%elem_of_difference. by apply Hc, elem_of_singleton. Qed.

Lemma remove_absent (c : cell) (X : gset cell) : c ∉ X → X ∖ {[c]} = X.
Proof. intros Hc. apply difference_disjoint_L, disjoint_singleton_r, Hc. Qed.

(** X1. A sentence never reports a cell both as a known mine and as a known
    safe: [known_mines] and [known_safes] are disjoint. *)
Theorem known_mines_known_safes_disjoint (s : Sentence) :
  Sentence.known_mines s ∩ Sentence.known_safes s = ∅.
Proof.
  unfold Sentence.known_mines, Sentence.known_safes.
  case_decide as Hlen; [|apply intersection_empty_l_L].
  case_decide as Hzero; [|apply intersection_empty_r_L].
  assert (cells s = ∅) as ->; [|apply intersection_empty_l_L].
  apply leibniz_equiv, size_empty_inv. unfold len_cells in Hlen. lia.
Qed.

(** X2. Marking a cell a mine removes it from what the sentence knows to be
    mines and changes nothing else of it:
    [known_mines] after [mark_mine(c)] is [known_mines] before, less [c]. *)
Theorem known_mines_mark_mine (c : cell) (s : Sentence) :
  Sentence.known_mines (Sentence.mark_mine c s) = Sentence.known_mines s ∖ {[c]}.
Proof.
  unfold Sentence.mark_mine. case_decide as Hin.
  - unfold Sentence.known_mines. rewrite len_cells_remove by done. simpl.
    repeat case_decide; try lia; [done|].
    by rewrite remove_absent by apply not_elem_of_empty.
  - unfold Sentence.known_mines. case_decide; [by rewrite remove_absent|].
    by rewrite remove_absent by apply not_elem_of_empty.
Qed.

(** X3. The same for safe cells: [known_safes] after [mark_safe(c)] is
    [known_safes] before, less [c]. *)
Theorem known_safes_mark_safe (c : cell) (s : Sentence) :
  Sentence.known_safes (Sentence.mark_safe c s) = Sentence.known_safes s ∖ {[c]}.
Proof.
  unfold Sentence.mark_safe. case_decide as Hin.
  - unfold Sentence.known_safes. simpl. case_decide; [done|].
    by rewrite remove_absent by apply not_elem_of_empty.
  - unfold Sentence.known_safes. case_decide; [by rewrite remove_absent|].
    by rewrite remove_absent by apply not_elem_of_empty.
Qed.

(** X4. [Sentence.mark_mine] keeps the number of cells that are not mines,
    [len(cells) - count], and never leaves the cell in the sentence;
    [Sentence.mark_safe] keeps [count] and never leaves the cell in the
    sentence. *)
Theorem Sentence_marks_keep (c : cell) (s : Sentence) :
  len_cells (Sentence.mark_mine c s) - count (Sentence.mark_mine c s)
    = len_cells s - count s ∧
  (c ∉ cells (Sentence.mark_mine c s)) ∧
  count (Sentence.mark_safe c s) = count s ∧
  (c ∉ cells (Sentence.mark_safe c s)).
Proof.
  unfold Sentence.mark_mine, Sentence.mark_safe.
  case_decide as Hin; simpl; [|done].
  rewrite len_cells_remove by done. simpl.
  repeat split; [lia|apply not_elem_of_remove|apply not_elem_of_remove].
Qed.

Lemma Sentence_mark_mine_absent c s : c ∉ cells s → Sentence.mark_mine c s = s.
Proof. intros Hc. unfold Sentence.mark_mine. by rewrite decide_False. Qed.

Lemma Sentence_mark_safe_absent c s : c ∉ cells s → Sentence.mark_safe c s = s.
Proof. intros Hc. unfold Sentence.mark_safe. by rewrite decide_False. Qed.

(** X5. On a sentence, marking a cell a second time, as a mine or as safe,
    changes nothing, whichever mark came first: the first mark wins. *)
Theorem Sentence_first_mark_wins (c : cell) (s : Sentence) :
  Sentence.mark_mine c (Sentence.mark_mine c s) = Sentence.mark_mine c s ∧
  Sentence.mark_safe c (Sentence.mark_safe c s) = Sentence.mark_safe c s ∧
  Sentence.mark_safe c (Sentence.mark_mine c s) = Sentence.mark_mine c s ∧
  Sentence.mark_mine c (Sentence.mark_safe c s) = Sentence.mark_safe c s.
Proof.
  assert (c ∉ cells (Sentence.mark_mine c s)) as Hmine.
  { unfold Sentence.mark_mine. case_decide; [apply not_elem_of_remove|done]. }
  assert (c ∉ cells (Sentence.mark_safe c s)) as Hsafe.
  { unfold Sentence.mark_safe. case_decide; [apply not_elem_of_remove|done]. }
  auto using Sentence_mark_mine_absent, Sentence_mark_safe_absent.
Qed.

(** The marks as one formula each. *)
Lemma Sentence_mark_mine_eq c s :
  Sentence.mark_mine c s
  = {| cells := cells s ∖ {[c]};
       count := count s - (if decide (c ∈ cells s) then 1 else 0) |}.
Proof.
  unfold Sentence.mark_mine. case_decide; [done|].
  rewrite remove_absent by done. destruct s; simpl. f_equal. lia.
Qed.

Lemma Sentence_mark_safe_eq c s :
  Sentence.mark_safe c s = {| cells := cells s ∖ {[c]}; count := count s |}.
Proof.
  unfold Sentence.mark_safe. case_decide; [done|].
  rewrite remove_absent by done. by destruct s.
Qed.

(** X6. Marks of two different cells commute on a sentence. *)
Theorem Sentence_marks_commute (a b : cell) (s : Sentence) :
  a ≠ b →
  Sentence.mark_mine a (Sentence.mark_mine b s)
    = Sentence.mark_mine b (Sentence.mark_mine a s) ∧
  Sentence.mark_safe a (Sentence.mark_safe b s)
    = Sentence.mark_safe b (Sentence.mark_safe a s) ∧
  Sentence.mark_safe a (Sentence.mark_mine b s)
    = Sentence.mark_mine b (Sentence.mark_safe a s).
Proof.
  intros Hab.
  assert (∀ X : gset cell, X ∖ {[b]} ∖ {[a]} = X ∖ {[a]} ∖ {[b]}) as Hswap.
  { intros X. apply set_eq. intros x. rewrite !elem_of_difference. tauto. }
  assert (∀ X : gset cell, a ∈ X ∖ {[b]} ↔ a ∈ X) as Ha.
  { intros X. rewrite elem_of_difference, elem_of_singleton. tauto. }
  assert (∀ X : gset cell, b ∈ X ∖ {[a]} ↔ b ∈ X) as Hb.
  { intros X. rewrite elem_of_difference, elem_of_singleton.
    split; [tauto|]. intros; split; [done|congruence]. }
  rewrite !Sentence_mark_mine_eq, !Sentence_mark_safe_eq. simpl.
  rewrite (decide_ext _ _ _ _ (Ha (cells s))), (decide_ext _ _ _ _ (Hb (cells s))).
  rewrite Hswap. repeat split. f_equal. lia.
Qed.

Lemma Sentence_marks_commute_witness :
  (1, 1) ≠ (1, 2) ∧
  Sentence.mark_safe (1, 1) (Sentence.mark_mine (1, 2) sentence_B)
  = Sentence.mark_mine (1, 2) (Sentence.mark_safe (1, 1) sentence_B).
Proof.
  split; [discriminate|].
  apply (Sentence_marks_commute (1, 1) (1, 2) sentence_B). discriminate.
Defined.

(** ** Neighbours and counts *)

Lemma sublist_if_cons {A} (b : bool) (x : A) (l1 l2 : list A) :
  l1 `sublist_of` l2 → (if b then [x] else []) ++ l1 `sublist_of` x :: l2.
Proof. intros Hsub. destruct b; simpl; by constructor. Qed.

(** The eight cells around a cell, in the order of the two loops. *)
Lemma get_neighbors_sublist ai c :
  get_neighbors ai c `sublist_of`
    [(c.1 - 1, c.2 - 1); (c.1 - 1, c.2); (c.1 - 1, c.2 + 1);
     (c.1, c.2 - 1); (c.1, c.2 + 1);
     (c.1 + 1, c.2 - 1); (c.1 + 1, c.2); (c.1 + 1, c.2 + 1)].
Proof.
  destruct c as [r k]. unfold get_neighbors, around. cbn [fst snd mbind list_bind app].
  rewrite (bool_decide_eq_false_2 (_ ∧ _ ∧ (r, k) ≠ (r, k))) by tauto.
  rewrite !app_nil_r. cbn [app]. rewrite <- !app_assoc.
  repeat apply sublist_if_cons.
  destruct (bool_decide _); simpl; repeat constructor.
Qed.

Lemma get_neighbors_sublist_NoDup ai c : NoDup (get_neighbors ai c).
Proof.
  eapply sublist_NoDup; [|apply get_neighbors_sublist].
  repeat (apply NoDup_cons; split;
    [rewrite ?elem_of_cons, elem_of_nil; intros Heq;
     repeat (destruct Heq as [Heq|Heq]); try done; injection Heq; lia|]).
  apply NoDup_nil_2.
Qed.

(** X7. [get_neighbors(cell)] lists exactly the cells of the board within one
    row and one column of [cell], without [cell]; it lists none twice and at
    most eight. *)
Theorem get_neighbors_spec (ai : MinesweeperAI) (c : cell) :
  (∀ n, n ∈ get_neighbors ai c ↔
     c.1 - 1 ≤ n.1 ≤ c.1 + 1 ∧ c.2 - 1 ≤ n.2 ≤ c.2 + 1 ∧
     0 ≤ n.1 < height ai ∧ 0 ≤ n.2 < width ai ∧ n ≠ c) ∧
  NoDup (get_neighbors ai c) ∧
  (length (get_neighbors ai c) ≤ 8)%nat.
Proof.
  split; [intros n; apply elem_of_get_neighbors|].
  pose proof (get_neighbors_sublist ai c) as Hsub. split.
  - apply get_neighbors_sublist_NoDup.
  - apply sublist_length in Hsub. exact Hsub.
Qed.

Lemma remove_first_sublist {A} (p : A → bool) (l : list A) :
  remove_first p l `sublist_of` l.
Proof.
  induction l as [|x l IH]; simpl; [done|].
  destruct (p x); by constructor.
Qed.

Lemma elem_of_remove_first_keep {A} (p : A → bool) (l : list A) (x : A) :
  x ∈ l → p x = false → x ∈ remove_first p l.
Proof.
  intros Hx Hp. induction l as [|y l IH]; simpl; [done|].
  apply elem_of_cons in Hx as [->|Hx].
  - rewrite Hp. apply list_elem_of_here.
  - destruct (p y); [done|]. apply list_elem_of_further, IH, Hx.
Qed.

Lemma unknown_from_sublist known fuel i l :
  unknown_from known fuel i l `sublist_of` l.
Proof.
  revert i l. induction fuel as [|fuel IH]; intros i l; simpl; [done|].
  destruct (l !! i) as [n|]; [|done].
  etrans; [apply IH|]. destruct (known n); [apply remove_first_sublist|done].
Qed.

Lemma unknown_from_keeps known fuel i l x :
  x ∈ l → known x = false → x ∈ unknown_from known fuel i l.
Proof.
  revert i l. induction fuel as [|fuel IH]; intros i l Hx Hk; simpl; [done|].
  destruct (l !! i) as [n|]; [|done].
  apply IH; [|done]. destruct (known n) eqn:Hn; [|done].
  apply elem_of_remove_first_keep; [done|].
  apply bool_decide_eq_false_2. intros ->. congruence.
Qed.

Lemma unknown_from_none known fuel i l :
  (∀ x, x ∈ l → known x = false) → unknown_from known fuel i l = l.
Proof.
  intros Hnone. revert i. induction fuel as [|fuel IH]; intros i; simpl; [done|].
  destruct (l !! i) as [n|] eqn:Hi; [|done].
  rewrite (Hnone n) by (by eapply list_elem_of_lookup_2). apply IH.
Qed.

(** X8. [unknown_neighbors(cell)] returns neighbours of [cell], in the order
    of [get_neighbors] and none twice, and among them every neighbour that is
    neither in [mines] nor in [safes]: removing from the list under iteration
    can keep a known cell, it never loses an unknown one.  When no neighbour
    is known the result is [get_neighbors(cell)]. *)
Theorem unknown_neighbors_keeps_unknown (ai : MinesweeperAI) (c : cell) :
  unknown_neighbors ai c `sublist_of` get_neighbors ai c ∧
  NoDup (unknown_neighbors ai c) ∧
  (∀ n, n ∈ get_neighbors ai c → n ∉ mines ai → n ∉ safes ai →
     n ∈ unknown_neighbors ai c) ∧
  ((∀ n, n ∈ get_neighbors ai c → (n ∉ mines ai) ∧ (n ∉ safes ai)) →
     unknown_neighbors ai c = get_neighbors ai c).
Proof.
  unfold unknown_neighbors. split; [apply unknown_from_sublist|].
  split; [|split].
  - eapply sublist_NoDup; [apply get_neighbors_sublist_NoDup|apply unknown_from_sublist].
  - intros n Hn Hmines Hsafes. apply unknown_from_keeps; [done|].
    apply bool_decide_eq_false_2. tauto.
  - intros Hnone. apply unknown_from_none. intros n Hn.
    apply bool_decide_eq_false_2. destruct (Hnone n Hn). tauto.
Qed.

(** The loops of [nearby_mines] over any two lists of rows and columns. *)
Lemma nearby_loops (g : Minesweeper.t) (ai : MinesweeperAI) (c : cell)
    (rows cols : list Z) (a : Z) :
  height ai = Minesweeper.height g → width ai = Minesweeper.width g →
  mines ai = Minesweeper.mines g →
  foldl (λ count i,
    foldl (λ count j,
      if bool_decide ((i, j) = c) then count
      else if bool_decide (0 ≤ i < Minesweeper.height g ∧ 0 ≤ j < Minesweeper.width g)
      then (if bool_decide ((i, j) ∈ Minesweeper.mines g) then count + 1 else count)
      else count) count cols) a rows
  = a + Z.of_nat (length (filter (λ n, n ∈ mines ai)
          (i ← rows; j ← cols;
           if bool_decide (0 ≤ i < height ai ∧ 0 ≤ j < width ai ∧ (i, j) ≠ c)
           then [(i, j)] else []))).
Proof.
  intros Hh Hw Hm. rewrite Hh, Hw, Hm. clear Hh Hw Hm.
  set (step := λ (i : Z) (count : Z) (j : Z),
    if bool_decide ((i, j) = c) then count
    else if bool_decide (0 ≤ i < Minesweeper.height g ∧ 0 ≤ j < Minesweeper.width g)
    then (if bool_decide ((i, j) ∈ Minesweeper.mines g) then count + 1 else count)
    else count).
  set (pick := λ (i j : Z),
    if bool_decide (0 ≤ i < Minesweeper.height g
                    ∧ 0 ≤ j < Minesweeper.width g ∧ (i, j) ≠ c)
    then [(i, j)] else []).
  change (foldl (λ count i, foldl (step i) count cols) a rows
    = a + Z.of_nat (length (filter (λ n, n ∈ Minesweeper.mines g)
            (i ← rows; j ← cols; pick i j)))).
  assert (∀ i a, foldl (step i) a cols
    = a + Z.of_nat (length (filter (λ n, n ∈ Minesweeper.mines g)
            (j ← cols; pick i j)))) as Hrow.
  { intros i. induction cols as [|j cols IHc]; intros b; cbn [foldl].
    - simpl. lia.
    - rewrite IHc, bind_cons, filter_app, length_app, Nat2Z.inj_add.
      unfold step, pick. repeat case_bool_decide; try tauto;
        rewrite ?filter_cons_True, ?filter_cons_False, ?filter_nil by done;
        simpl; lia. }
  revert a. induction rows as [|i rows IHr]; intros a; cbn [foldl].
  - simpl. lia.
  - rewrite IHr, Hrow, bind_cons, filter_app, length_app, Nat2Z.inj_add. lia.
Qed.

Lemma nearby_mines_eq (g : Minesweeper.t) (ai : MinesweeperAI) (c : cell) :
  height ai = Minesweeper.height g → width ai = Minesweeper.width g →
  mines ai = Minesweeper.mines g →
  Minesweeper.nearby_mines g c = mines_in_neighbors ai c.
Proof.
  intros Hh Hw Hm. unfold Minesweeper.nearby_mines, mines_in_neighbors, get_neighbors.
  rewrite (nearby_loops g ai c) by done. apply Z.add_0_l.
Qed.

(** X9. The count the board reports for a cell is the number of neighbours of
    the cell, as [get_neighbors] lists them, that are mines: for an AI of the
    board's dimensions that knows exactly the board's mines,
    [nearby_mines(cell)] equals [mines_in_neighbors(cell)]. *)
Theorem nearby_mines_counts_neighbors (g : Minesweeper.t) (ai : MinesweeperAI)
    (c : cell) :
  height ai = Minesweeper.height g → width ai = Minesweeper.width g →
  mines ai = Minesweeper.mines g →
  Minesweeper.nearby_mines g c = mines_in_neighbors ai c.
Proof. apply nearby_mines_eq. Qed.

Lemma nearby_mines_counts_neighbors_witness :
  let ai := set_mines (λ _, Minesweeper.mines board_corners) (init 3 3) in
  height ai = Minesweeper.height board_corners ∧
  width ai = Minesweeper.width board_corners ∧
  mines ai = Minesweeper.mines board_corners ∧
  Minesweeper.nearby_mines board_corners (1, 1) = mines_in_neighbors ai (1, 1).
Proof.
  do 3 (split; [reflexivity|]).
  exact (nearby_mines_counts_neighbors board_corners
    (set_mines (λ _, Minesweeper.mines board_corners) (init 3 3)) (1, 1)
    eq_refl eq_refl eq_refl).
Defined.

(** X10. Both counts are between 0 and 8. *)
Theorem neighbor_counts_bounded (g : Minesweeper.t) (ai : MinesweeperAI) (c : cell) :
  0 ≤ Minesweeper.nearby_mines g c ≤ 8 ∧ 0 ≤ mines_in_neighbors ai c ≤ 8.
Proof.
  assert (∀ ai, 0 ≤ mines_in_neighbors ai c ≤ 8) as Hai.
  { intros ai'. unfold mines_in_neighbors.
    pose proof (length_filter (λ n, n ∈ mines ai') (get_neighbors ai' c)).
    pose proof (sublist_length _ _ (get_neighbors_sublist ai' c)) as Hlen.
    simpl in Hlen. lia. }
  split; [|apply Hai].
  rewrite (nearby_mines_eq g
    {| height := Minesweeper.height g; width := Minesweeper.width g;
       moves_made := ∅; mines := Minesweeper.mines g; safes := ∅;
       knowledge := []; objects := [] |} c) by done.
  apply Hai.
Qed.

(** ** The knowledge base as a list of objects *)

Lemma deref_update_eq r s ai :
  (r < length (objects ai))%nat → deref (update r s ai) r = s.
Proof. intros Hr. unfold deref; simpl. by rewrite list_lookup_insert_eq. Qed.

Lemma deref_update_ne r r' s ai : r ≠ r' → deref (update r s ai) r' = deref ai r'.
Proof. intros Hr. unfold deref; simpl. by rewrite list_lookup_insert_ne. Qed.

Lemma well_formed_update r s ai : well_formed ai → well_formed (update r s ai).
Proof. unfold well_formed; simpl. by rewrite length_insert. Qed.

Lemma well_formed_knowledge_remove s ai :
  well_formed ai → well_formed (knowledge_remove s ai).
Proof.
  intros [Hdup Hlt]. split; simpl.
  - eapply sublist_NoDup; [exact Hdup|apply remove_first_sublist].
  - apply Forall_forall. intros r Hr. rewrite Forall_forall in Hlt. apply Hlt.
    by eapply elem_of_remove_first.
Qed.

Lemma well_formed_append_sentence s ai :
  well_formed ai → well_formed (append_sentence s ai).
Proof.
  intros [Hdup Hlt]. split; simpl.
  - apply NoDup_app. split; [done|]. split; [|apply NoDup_singleton].
    intros r Hr ->%list_elem_of_singleton.
    rewrite Forall_forall in Hlt. specialize (Hlt _ Hr). lia.
  - rewrite length_app. simpl. apply Forall_app. split.
    + eapply Forall_impl; [exact Hlt|]. simpl. lia.
    + apply Forall_singleton. lia.
Qed.

Lemma well_formed_marking f r ai : well_formed ai → well_formed (marking f r ai).
Proof.
  intros Hwf. unfold marking. case_decide.
  - by apply well_formed_knowledge_remove, well_formed_update.
  - by apply well_formed_update.
Qed.

Lemma well_formed_mark_mine c ai : well_formed ai → well_formed (mark_mine c ai).
Proof.
  intros Hwf. unfold mark_mine. apply for_knowledge_preserves; [|done].
  intros r ai'. apply (well_formed_marking (Sentence.mark_mine c)).
Qed.

Lemma well_formed_mark_safe c ai : well_formed ai → well_formed (mark_safe c ai).
Proof.
  intros Hwf. unfold mark_safe. apply for_knowledge_preserves; [|done].
  intros r ai'. apply (well_formed_marking (Sentence.mark_safe c)).
Qed.

Lemma foldl_preserves {A} (P : MinesweeperAI → Prop)
    (f : MinesweeperAI → A → MinesweeperAI) (l : list A) ai :
  (∀ ai x, P ai → P (f ai x)) → P ai → P (foldl f ai l).
Proof.
  intros Hf. revert ai. induction l as [|x l IH]; intros ai HP; simpl; [done|].
  apply IH, Hf, HP.
Qed.

Section WellFormed.
Context {order : SetIter}.

Lemma well_formed_mark_all_mines s ai :
  well_formed ai → well_formed (mark_all_mines s ai).
Proof. apply foldl_preserves. intros ? ?. apply well_formed_mark_mine. Qed.

Lemma well_formed_mark_all_safe s ai :
  well_formed ai → well_formed (mark_all_safe s ai).
Proof. apply foldl_preserves. intros ? ?. apply well_formed_mark_safe. Qed.

Lemma well_formed_resolve_body r ai :
  well_formed ai → well_formed (resolve_body r ai).
Proof.
  intros Hwf. unfold resolve_body.
  case_bool_decide; [by apply well_formed_knowledge_remove|].
  repeat case_decide;
    auto using well_formed_mark_all_safe, well_formed_mark_all_mines.
Qed.

Lemma well_formed_derive s ai : well_formed ai → well_formed (derive s ai).
Proof.
  intros Hwf. unfold derive. repeat case_decide;
    auto using well_formed_mark_all_safe, well_formed_append_sentence.
Qed.

Lemma well_formed_combine_body ai p :
  well_formed ai → well_formed (combine_body ai p).
Proof.
  intros Hwf. unfold combine_body. repeat case_decide; auto using well_formed_derive.
Qed.

Lemma well_formed_add_knowledge c n ai :
  well_formed ai → well_formed (add_knowledge c n ai).
Proof.
  intros Hwf. unfold add_knowledge, combine_pass, resolve_pass,
    add_knowledge_appended, add_knowledge_marked.
  apply foldl_preserves; [apply well_formed_combine_body|].
  apply for_knowledge_preserves; [apply well_formed_resolve_body|].
  apply well_formed_append_sentence, well_formed_mark_safe, Hwf.
Qed.

Lemma well_formed_perform ai op : well_formed ai → well_formed (perform ai op).
Proof.
  destruct op; simpl;
    auto using well_formed_add_knowledge, well_formed_mark_mine, well_formed_mark_safe.
Qed.

End WellFormed.

(** X11. Whatever the public operations called on a new AI, the knowledge
    base never holds the same [Sentence] object twice (every
    [self.knowledge.append] is given a new object), and it only holds objects
    that were created. *)
Theorem knowledge_objects_distinct (o : SetIter) (h w : Z) (ops : list operation) :
  well_formed (perform_all (init h w) ops).
Proof.
  apply (foldl_preserves well_formed); [intros ? ?; apply well_formed_perform|].
  split; [apply NoDup_nil_2|apply Forall_nil_2].
Qed.

(** ** Marking cells in the AI *)

(** When the loop of [mark_mine] or [mark_safe] empties no sentence, it
    visits every position: after position [i] the sentences before it are as
    they were on entry and the others have been updated. *)
Lemma marking_from f fuel i ai :
  well_formed ai →
  (length (knowledge ai) ≤ i + fuel)%nat →
  (∀ j r, (i ≤ j)%nat → knowledge ai !! j = Some r → cells (f (deref ai r)) ≠ ∅) →
  knowledge (for_knowledge_from (marking f) fuel i ai) = knowledge ai ∧
  ∀ j r, knowledge ai !! j = Some r →
    deref (for_knowledge_from (marking f) fuel i ai) r
    = if decide (j < i)%nat then deref ai r else f (deref ai r).
Proof.
  revert i ai. induction fuel as [|fuel IH]; intros i ai Hwf Hlen Hfull.
  - simpl. split; [done|]. intros j r Hj.
    apply lookup_lt_Some in Hj. rewrite decide_True by lia. done.
  - simpl. destruct (knowledge ai !! i) as [ri|] eqn:Hi.
    2: { split; [done|]. intros j r Hj. apply lookup_lt_Some in Hj.
         apply lookup_ge_None in Hi. rewrite decide_True by lia. done. }
    assert (marking f ri ai = update ri (f (deref ai ri)) ai) as ->.
    { unfold marking. rewrite decide_False; [done|].
      unfold len_cells. intros Hzero.
      apply (Hfull i ri); [lia|done|].
      apply leibniz_equiv, size_empty_inv. lia. }
    destruct Hwf as [Hdup Hlt].
    assert (ri < length (objects ai))%nat as Hri.
    { rewrite Forall_forall in Hlt. apply Hlt. by eapply list_elem_of_lookup_2. }
    assert (∀ j r, j ≠ i → knowledge ai !! j = Some r → r ≠ ri) as Hother.
    { intros j r Hji Hj ->. apply Hji. by eapply NoDup_lookup. }
    destruct (IH (S i) (update ri (f (deref ai ri)) ai)) as [Hk Hd].
    + by apply well_formed_update.
    + simpl. lia.
    + intros j r Hij Hj. simpl in Hj.
      rewrite deref_update_ne by (apply not_eq_sym, (Hother j); [lia|done]).
      apply (Hfull j); [lia|done].
    + split; [exact Hk|]. intros j r Hj. rewrite (Hd j r Hj).
      destruct (decide (j = i)) as [->|Hji].
      * assert (r = ri) as -> by congruence.
        rewrite decide_True, decide_False by lia. by apply deref_update_eq.
      * rewrite deref_update_ne by (apply not_eq_sym, (Hother j); done).
        repeat case_decide; try lia; done.
Qed.

Lemma marking_all f ai :
  well_formed ai →
  (∀ s, s ∈ sentences ai → cells (f s) ≠ ∅) →
  sentences (for_knowledge (marking f) ai) = f <$> sentences ai.
Proof.
  intros Hwf Hfull. unfold for_knowledge.
  destruct (marking_from f (length (knowledge ai)) 0 ai) as [Hk Hd]; [done|lia| |].
  { intros j r _ Hj. apply Hfull. unfold sentences.
    apply list_elem_of_fmap. exists r. split; [done|by eapply list_elem_of_lookup_2]. }
  unfold sentences. rewrite Hk, <- list_fmap_compose.
  apply list_eq. intros j. rewrite !list_lookup_fmap.
  destruct (knowledge ai !! j) as [r|] eqn:Hj; [|done]. simpl.
  by rewrite (Hd j r Hj).
Qed.

(** X12. When [mark_mine(cell)] empties no sentence (every sentence of the
    knowledge base has a cell other than [cell]), it removes none and updates
    every one: the knowledge base after the call is the one before with
    [Sentence.mark_mine(cell)] applied to each sentence.  The same holds for
    [mark_safe]. *)
Theorem marks_update_all (c : cell) (ai : MinesweeperAI) :
  well_formed ai →
  (∀ s, s ∈ sentences ai → cells s ∖ {[c]} ≠ ∅) →
  sentences (mark_mine c ai) = Sentence.mark_mine c <$> sentences ai ∧
  sentences (mark_safe c ai) = Sentence.mark_safe c <$> sentences ai.
Proof.
  intros Hwf Hfull. split.
  - apply (marking_all (Sentence.mark_mine c) (set_mines _ ai)); [done|].
    intros s Hs. rewrite Sentence_mark_mine_eq. by apply Hfull.
  - apply (marking_all (Sentence.mark_safe c) (set_safes _ ai)); [done|].
    intros s Hs. rewrite Sentence_mark_safe_eq. by apply Hfull.
Qed.

Lemma marks_update_all_witness :
  well_formed knows_A_B ∧
  (∀ s, s ∈ sentences knows_A_B → cells s ∖ {[(1, 1)]} ≠ ∅) ∧
  sentences (mark_mine (1, 1) knows_A_B)
  = Sentence.mark_mine (1, 1) <$> sentences knows_A_B.
Proof.
  assert (well_formed knows_A_B) as Hwf.
  { apply well_formed_append_sentence, well_formed_append_sentence.
    split; [apply NoDup_nil_2|apply Forall_nil_2]. }
  assert (∀ s, s ∈ sentences knows_A_B → cells s ∖ {[(1, 1)]} ≠ ∅) as Hfull.
  { intros s Hs Hempty. apply (f_equal size) in Hempty.
    change (sentences knows_A_B) with [sentence_A; sentence_B] in Hs.
    apply elem_of_cons in Hs as [->|Hs];
      [|apply list_elem_of_singleton in Hs as ->]; vm_compute in Hempty; discriminate. }
  split; [exact Hwf|]. split; [exact Hfull|].
  apply (marks_update_all (1, 1) knows_A_B Hwf Hfull).
Defined.

Lemma marking_sublist f r ai :
  knowledge (marking f r ai) `sublist_of` knowledge ai.
Proof.
  unfold marking. case_decide; [|done].
  apply (remove_first_sublist _ (knowledge ai)).
Qed.

Lemma for_knowledge_sublist body ai :
  (∀ r ai, knowledge (body r ai) `sublist_of` knowledge ai) →
  knowledge (for_knowledge body ai) `sublist_of` knowledge ai.
Proof.
  intros Hbody.
  apply (for_knowledge_preserves (λ ai', knowledge ai' `sublist_of` knowledge ai));
    [|done].
  intros r ai' Hai'. etrans; [apply Hbody|exact Hai'].
Qed.

(** X13. [mark_mine(cell)] adds [cell] to [mines], [mark_safe(cell)] adds it
    to [safes]; neither changes another set or the dimensions; and the
    sentences left in the knowledge base are objects that were in it, in the
    order they were in: nothing is added or moved. *)
Theorem marks_frame (c : cell) (ai : MinesweeperAI) :
  facts (mark_mine c ai)
    = (height ai, width ai, moves_made ai, {[c]} ∪ mines ai, safes ai) ∧
  knowledge (mark_mine c ai) `sublist_of` knowledge ai ∧
  facts (mark_safe c ai)
    = (height ai, width ai, moves_made ai, mines ai, {[c]} ∪ safes ai) ∧
  knowledge (mark_safe c ai) `sublist_of` knowledge ai.
Proof.
  split; [apply facts_mark_mine|]. split.
  { apply (for_knowledge_sublist _ (set_mines _ ai)).
    apply (marking_sublist (Sentence.mark_mine c)). }
  split; [apply facts_mark_safe|].
  apply (for_knowledge_sublist _ (set_safes _ ai)).
  apply (marking_sublist (Sentence.mark_safe c)).
Qed.

Lemma list_to_set_set_iter `{SetIter} (X : gset cell) : list_to_set (set_iter X) = X.
Proof. rewrite set_iter_perm. apply list_to_set_elements_L. Qed.

Lemma facts_mark_all_mines `{SetIter} s ai :
  facts (mark_all_mines s ai)
  = (height ai, width ai, moves_made ai, cells s ∪ mines ai, safes ai).
Proof.
  unfold mark_all_mines. rewrite <- (list_to_set_set_iter (cells s)) at 2.
  generalize (set_iter (cells s)). intros l. revert ai.
  induction l as [|c l IH]; intros ai; simpl.
  - by rewrite (left_id_L ∅ (∪)).
  - rewrite IH. pose proof (facts_mark_mine c ai) as [= -> -> -> -> ->].
    by rewrite (assoc_L (∪)), (comm_L (∪) _ {[c]}).
Qed.

Lemma facts_mark_all_safe `{SetIter} s ai :
  facts (mark_all_safe s ai)
  = (height ai, width ai, moves_made ai, mines ai, cells s ∪ safes ai).
Proof.
  unfold mark_all_safe. rewrite <- (list_to_set_set_iter (cells s)) at 2.
  generalize (set_iter (cells s)). intros l. revert ai.
  induction l as [|c l IH]; intros ai; simpl.
  - by rewrite (left_id_L ∅ (∪)).
  - rewrite IH. pose proof (facts_mark_safe c ai) as [= -> -> -> -> ->].
    by rewrite (assoc_L (∪)), (comm_L (∪) _ {[c]}).
Qed.

(** X14. Whatever the iteration order of the set, [mark_all_mines(sentence)]
    adds the cells of the sentence, and nothing else, to [mines], and
    [mark_all_safe(sentence)] to [safes]; no other set changes. *)
Theorem mark_all_frame (o : SetIter) (s : Sentence) (ai : MinesweeperAI) :
  facts (mark_all_mines s ai)
    = (height ai, width ai, moves_made ai, cells s ∪ mines ai, safes ai) ∧
  facts (mark_all_safe s ai)
    = (height ai, width ai, moves_made ai, mines ai, cells s ∪ safes ai).
Proof. split; [apply facts_mark_all_mines|apply facts_mark_all_safe]. Qed.

(** ** [add_knowledge] *)

Lemma same_board_facts ai ai' mi sa :
  facts ai' = (height ai, width ai, moves_made ai, mi, sa) → same_board ai ai'.
Proof. unfold facts, same_board. by intros [= -> -> -> _ _]. Qed.

Lemma same_board_trans ai1 ai2 ai3 :
  same_board ai1 ai2 → same_board ai2 ai3 → same_board ai1 ai3.
Proof. unfold same_board. intros (-> & -> & ->) (-> & -> & ->). done. Qed.

Section SameBoard.
Context {order : SetIter}.

Lemma same_board_resolve_body r ai : same_board ai (resolve_body r ai).
Proof.
  unfold resolve_body. case_bool_decide; [done|].
  repeat case_decide; [| |done].
  - eapply same_board_facts, facts_mark_all_safe.
  - eapply same_board_facts, facts_mark_all_mines.
Qed.

Lemma same_board_derive s ai : same_board ai (derive s ai).
Proof.
  unfold derive. repeat case_decide; [done| |done].
  eapply same_board_facts, facts_mark_all_safe.
Qed.

Lemma same_board_combine_body ai p : same_board ai (combine_body ai p).
Proof. unfold combine_body. repeat case_decide; try done; apply same_board_derive. Qed.

Lemma same_board_add_knowledge c n ai :
  same_board (set_moves_made (λ m, {[c]} ∪ m) ai) (add_knowledge c n ai).
Proof.
  unfold add_knowledge, combine_pass, resolve_pass, add_knowledge_appended,
    add_knowledge_marked.
  apply (foldl_preserves (same_board _)).
  { intros ai' p Hai'. eapply same_board_trans, same_board_combine_body. exact Hai'. }
  apply (for_knowledge_preserves (same_board _)).
  { intros r ai' Hai'. eapply same_board_trans, same_board_resolve_body. exact Hai'. }
  eapply same_board_facts. rewrite facts_append_sentence. apply facts_mark_safe.
Qed.

End SameBoard.

(** X15. [add_knowledge(cell, count)] adds [cell], and no other cell, to
    [moves_made]; it leaves the dimensions of the board alone; and [cell] is
    in [safes] when it returns.  This holds for every count and every state. *)
Theorem add_knowledge_records_move (o : SetIter) (c : cell) (n : Z)
    (ai : MinesweeperAI) :
  height (add_knowledge c n ai) = height ai ∧
  width (add_knowledge c n ai) = width ai ∧
  moves_made (add_knowledge c n ai) = {[c]} ∪ moves_made ai ∧
  c ∈ safes (add_knowledge c n ai).
Proof.
  destruct (same_board_add_knowledge c n ai) as (Hh & Hw & Hm).
  repeat split; [done|done|done|].
  assert (grows (add_knowledge_marked c ai) (add_knowledge c n ai)) as (_ & _ & Hs).
  { unfold add_knowledge, combine_pass, resolve_pass, add_knowledge_appended.
    etrans; [|apply grows_foldl, grows_combine_body].
    etrans; [|apply grows_for_knowledge, grows_resolve_body].
    by apply grows_facts, facts_append_sentence. }
  apply Hs. unfold add_knowledge_marked.
  pose proof (facts_mark_safe c (set_moves_made (λ m, {[c]} ∪ m) ai)) as [= _ _ _ _ ->].
  apply elem_of_union_l, elem_of_singleton. done.
Qed.

Lemma combinations2_short {A} (l : list A) :
  (length l ≤ 1)%nat → combinations2 l = [].
Proof. destruct l as [|x [|y l]]; simpl; [done|done|lia]. Qed.

Lemma add_knowledge_marked_empty c ai :
  knowledge ai = [] →
  add_knowledge_marked c ai
  = set_safes (λ m, {[c]} ∪ m) (set_moves_made (λ m, {[c]} ∪ m) ai).
Proof.
  intros Hk. unfold add_knowledge_marked, mark_safe, for_knowledge. simpl.
  by rewrite Hk.
Qed.

Lemma knowledge_add_knowledge_appended c n ai :
  knowledge ai = [] →
  knowledge (add_knowledge_appended c n ai) = [length (objects ai)].
Proof.
  intros Hk. unfold add_knowledge_appended.
  rewrite add_knowledge_marked_empty by done. simpl. by rewrite Hk.
Qed.

(** With an empty knowledge base the call comes down to one visit of the new
    sentence by the first loop. *)
Lemma add_knowledge_empty `{SetIter} c n ai :
  knowledge ai = [] →
  add_knowledge c n ai
  = resolve_body (length (objects ai)) (add_knowledge_appended c n ai).
Proof.
  intros Hk. pose proof (knowledge_add_knowledge_appended c n ai Hk) as Hap.
  unfold add_knowledge, combine_pass.
  assert (resolve_pass (add_knowledge_appended c n ai)
    = resolve_body (length (objects ai)) (add_knowledge_appended c n ai)) as ->.
  { unfold resolve_pass, for_knowledge. rewrite Hap.
    cbn [length for_knowledge_from]. by rewrite Hap. }
  rewrite combinations2_short; [done|].
  etrans; [apply shrinking_resolve_body|]. by rewrite Hap.
Qed.

Lemma deref_add_knowledge_appended c n ai :
  knowledge ai = [] →
  deref (add_knowledge_appended c n ai) (length (objects ai))
  = observed_sentence (add_knowledge_marked c ai) c n ∧
  facts (add_knowledge_appended c n ai)
  = (height ai, width ai, {[c]} ∪ moves_made ai, mines ai, {[c]} ∪ safes ai).
Proof.
  intros Hk. unfold add_knowledge_appended.
  rewrite add_knowledge_marked_empty by done. split; [|done].
  exact (deref_append_sentence_new _
    (set_safes (λ m, {[c]} ∪ m) (set_moves_made (λ m, {[c]} ∪ m) ai))).
Qed.

Lemma add_knowledge_empty_sets `{SetIter} (c : cell) (n : Z)
    (ai : MinesweeperAI) :
  knowledge ai = [] →
  let s := observed_sentence (add_knowledge_marked c ai) c n in
  mines (add_knowledge c n ai)
    = (if decide (0 < count s ∧ count s = len_cells s)
       then cells s ∪ mines ai else mines ai) ∧
  safes (add_knowledge c n ai)
    = (if decide (count s = 0)
       then cells s ∪ ({[c]} ∪ safes ai) else {[c]} ∪ safes ai) ∧
  (length (knowledge (add_knowledge c n ai)) ≤ 1)%nat.
Proof.
  intros Hk s. rewrite add_knowledge_empty by done.
  destruct (deref_add_knowledge_appended c n ai Hk) as [Hs Hfacts].
  fold s in Hs.
  assert (length (knowledge (add_knowledge_appended c n ai)) = 1%nat) as Hlen
    by (by rewrite knowledge_add_knowledge_appended).
  set (ap := add_knowledge_appended c n ai) in *.
  assert (mines ap = mines ai) as Hm by exact (f_equal (λ x, x.1.2) Hfacts).
  assert (safes ap = {[c]} ∪ safes ai) as Hsa by exact (f_equal snd Hfacts).
  assert (mines (mark_all_safe s ap) = mines ap) as Hm_safe
    by exact (f_equal (λ x, x.1.2) (facts_mark_all_safe s ap)).
  assert (safes (mark_all_safe s ap) = cells s ∪ safes ap) as Hs_safe
    by exact (f_equal snd (facts_mark_all_safe s ap)).
  assert (mines (mark_all_mines s ap) = cells s ∪ mines ap) as Hm_mines
    by exact (f_equal (λ x, x.1.2) (facts_mark_all_mines s ap)).
  assert (safes (mark_all_mines s ap) = safes ap) as Hs_mines
    by exact (f_equal snd (facts_mark_all_mines s ap)).
  assert (0 ≤ len_cells s) as Hpos by (unfold len_cells; lia).
  split; [|split].
  3: { etrans; [apply shrinking_resolve_body|]. by rewrite Hlen. }
  all: unfold resolve_body; rewrite Hs.
  all: case_bool_decide as Hinvalid.
  - change (mines (knowledge_remove s ap)) with (mines ap).
    rewrite Hm, decide_False; [done|lia].
  - destruct (decide (count s = 0)) as [Hzero|Hzero].
    + rewrite Hm_safe, Hm, decide_False; [done|lia].
    + destruct (decide (count s = len_cells s)) as [Hfull|Hfull].
      * rewrite Hm_mines, Hm, decide_True; [done|lia].
      * rewrite Hm, decide_False; [done|lia].
  - change (safes (knowledge_remove s ap)) with (safes ap). rewrite Hsa.
    case_decide as Hzero; [|done].
    assert (cells s = ∅) as ->; [|by rewrite (left_id_L ∅ (∪))].
    apply leibniz_equiv, size_empty_inv. unfold len_cells in *. lia.
  - destruct (decide (count s = 0)) as [Hzero|Hzero].
    + by rewrite Hs_safe, Hsa.
    + destruct (decide (count s = len_cells s)); by rewrite ?Hs_mines, Hsa.
Qed.

(** X16. With an empty knowledge base, [add_knowledge] settles the sentence
    it builds at once: when its count is 0 its cells are added to [safes],
    when its count is positive and equal to the number of its cells they are
    added to [mines], and otherwise only the revealed cell is added to
    [safes]; at most that one sentence is in the knowledge base afterwards. *)
Theorem add_knowledge_empty_knowledge (o : SetIter) (c : cell) (n : Z)
    (ai : MinesweeperAI) :
  knowledge ai = [] →
  let s := observed_sentence (add_knowledge_marked c ai) c n in
  mines (add_knowledge c n ai)
    = (if decide (0 < count s ∧ count s = len_cells s)
       then cells s ∪ mines ai else mines ai) ∧
  safes (add_knowledge c n ai)
    = (if decide (count s = 0)
       then cells s ∪ ({[c]} ∪ safes ai) else {[c]} ∪ safes ai) ∧
  (length (knowledge (add_knowledge c n ai)) ≤ 1)%nat.
Proof. apply add_knowledge_empty_sets. Qed.

Lemma add_knowledge_empty_knowledge_witness :
  knowledge (init 3 3) = [] ∧
  safes (@add_knowledge elements_iter (0, 0) 0 (init 3 3))
  = {[(0, 1); (1, 0); (1, 1)]} ∪ ({[(0, 0)]} ∪ ∅).
Proof.
  split; [reflexivity|].
  destruct (add_knowledge_empty_knowledge elements_iter (0, 0) 0 (init 3 3) eq_refl)
    as (_ & Hsafes & _).
  rewrite Hsafes. vm_compute. reflexivity.
Defined.

Lemma filter_none {A} (P : A → Prop) `{∀ x, Decision (P x)} (l : list A) :
  (∀ x, x ∈ l → ¬ P x) → filter P l = [].
Proof.
  intros Hnone. induction l as [|x l IH]; [done|].
  rewrite filter_cons_False by (apply Hnone, list_elem_of_here).
  apply IH. intros y Hy. apply Hnone. by apply list_elem_of_further.
Qed.

(** The sentence built for the first cell revealed. *)
Lemma observed_sentence_first h w c n :
  observed_sentence (add_knowledge_marked c (init h w)) c n
  = {| cells := list_to_set (get_neighbors (init h w) c); count := n |}.
Proof.
  rewrite add_knowledge_marked_empty by done.
  unfold observed_sentence, unknown_neighbors, mines_in_neighbors.
  change (get_neighbors (set_safes _ (set_moves_made _ (init h w))) c)
    with (get_neighbors (init h w) c).
  rewrite unknown_from_none, filter_none.
  - simpl. f_equal. lia.
  - intros x _. simpl. apply not_elem_of_empty.
  - intros x Hx. apply bool_decide_eq_false_2. simpl.
    apply elem_of_get_neighbors in Hx as (_ & _ & _ & _ & Hne).
    intros [Hin|Hin]; [by apply not_elem_of_empty in Hin|].
    apply elem_of_union in Hin as [Hin%elem_of_singleton|Hin]; [done|].
    by apply not_elem_of_empty in Hin.
Qed.

(** X17. The first reveal.  On a new AI, [add_knowledge(cell, count)] leaves
    [cell] as the only move made; with count 0 it marks [cell] and all its
    neighbours safe, otherwise only [cell]; with a positive count equal to
    the number of neighbours it marks all the neighbours mines, otherwise
    none. *)
Theorem first_reveal (o : SetIter) (h w : Z) (c : cell) (n : Z) :
  let neighbors : gset cell := list_to_set (get_neighbors (init h w) c) in
  let ai := add_knowledge c n (init h w) in
  moves_made ai = {[c]} ∧
  safes ai = (if decide (n = 0) then neighbors ∪ {[c]} else {[c]}) ∧
  mines ai
    = (if decide (0 < n ∧ n = Z.of_nat (length (get_neighbors (init h w) c)))
       then neighbors else ∅).
Proof.
  intros neighbors ai. subst ai.
  destruct (same_board_add_knowledge c n (init h w)) as (_ & _ & Hmoves).
  destruct (add_knowledge_empty_sets c n (init h w) eq_refl) as (Hmines & Hsafes & _).
  rewrite observed_sentence_first in Hmines, Hsafes.
  unfold len_cells in Hmines. simpl in Hmines, Hsafes, Hmoves.
  rewrite size_list_to_set in Hmines by apply get_neighbors_sublist_NoDup.
  fold neighbors in Hmines, Hsafes.
  rewrite Hmoves, Hmines, Hsafes, !(right_id_L ∅ (∪)). done.
Qed.

(** ** The second loop of [add_knowledge] *)

Lemma sentences_append_sentence s ai :
  well_formed ai → sentences (append_sentence s ai) = sentences ai ++ [s].
Proof.
  intros [_ Hlt]. unfold sentences.
  change (knowledge (append_sentence s ai)) with (knowledge ai ++ [length (objects ai)]).
  rewrite fmap_app. simpl. rewrite deref_append_sentence_new. f_equal.
  apply list_fmap_ext. intros i r Hr. apply deref_append_sentence_old.
  rewrite Forall_forall in Hlt. apply Hlt. by eapply list_elem_of_lookup_2.
Qed.

Lemma derive_cases `{SetIter} (d : Sentence) (ai : MinesweeperAI) :
  well_formed ai →
  (d ∈ sentences ai → derive d ai = ai) ∧
  (d ∉ sentences ai → count d = 0 →
     facts (derive d ai)
     = (height ai, width ai, moves_made ai, mines ai, cells d ∪ safes ai)) ∧
  (d ∉ sentences ai → count d ≠ 0 →
     sentences (derive d ai) = sentences ai ++ [d] ∧ facts (derive d ai) = facts ai).
Proof.
  intros Hwf. unfold derive. split; [|split].
  - intros Hin. by rewrite decide_True.
  - intros Hin Hzero. rewrite decide_False, decide_True by done.
    apply facts_mark_all_safe.
  - intros Hin Hzero. rewrite !decide_False by done.
    split; [by apply sentences_append_sentence|done].
Qed.

(** The difference of two sentences is in the knowledge base that holds just
    the two only when the smaller one is empty with count 0. *)
Lemma difference_not_known (s1 s2 : Sentence) :
  len_cells s1 ≠ len_cells s2 → cells s1 ⊆ cells s2 →
  s1 ≠ {| cells := ∅; count := 0 |} →
  ({| cells := cells s2 ∖ cells s1; count := count s2 - count s1 |} ∉ [s1; s2])
  ∧ ({| cells := cells s2 ∖ cells s1; count := count s2 - count s1 |} ∉ [s2; s1]).
Proof.
  intros Hlen Hsub Hne.
  assert ({| cells := cells s2 ∖ cells s1; count := count s2 - count s1 |} ≠ s1) as H1.
  { intros Heq. apply Hlen. apply (f_equal cells) in Heq. simpl in Heq.
    assert (cells s1 = ∅) as Hempty.
    { apply set_eq. intros x. split; [|by intros ?%not_elem_of_empty].
      intros Hx. exfalso. assert (x ∈ cells s2 ∖ cells s1) as Hd by (by rewrite Heq).
      apply elem_of_difference in Hd as [_ Hd]. by apply Hd. }
    unfold len_cells. rewrite Hempty in Heq |- *.
    rewrite (difference_empty_L (cells s2)) in Heq. rewrite Heq. reflexivity. }
  assert ({| cells := cells s2 ∖ cells s1; count := count s2 - count s1 |} ≠ s2) as H2.
  { intros Heq. apply Hne. destruct s1 as [c1 n1], s2 as [c2 n2]; simpl in *.
    injection Heq as Hc Hn. f_equal; [|lia].
    apply set_eq. intros x. split; [|by intros ?%not_elem_of_empty].
    intros Hx. exfalso. assert (x ∈ c2 ∖ c1) as Hd by (rewrite Hc; by apply Hsub).
    apply elem_of_difference in Hd as [_ Hd]. by apply Hd. }
  split; intros Hin; repeat (apply elem_of_cons in Hin as [Hin|Hin]);
    try congruence; by apply elem_of_nil in Hin.
Qed.

Lemma combine_pass_pair `{SetIter} (ai : MinesweeperAI) (s1 s2 : Sentence) :
  sentences ai = [s1; s2] →
  ∃ r1 r2, knowledge ai = [r1; r2] ∧ deref ai r1 = s1 ∧ deref ai r2 = s2 ∧
    combine_pass ai = combine_body ai (r1, r2).
Proof.
  unfold sentences. intros Hk.
  destruct (knowledge ai) as [|r1 [|r2 [|r3 k]]] eqn:Hrefs; try discriminate.
  injection Hk as HA HB. exists r1, r2. repeat split; try done.
  unfold combine_pass. by rewrite Hrefs.
Qed.

(** X18. Subset resolution on a knowledge base of two sentences.  When the
    two have different numbers of cells, the cells of one are among the cells
    of the other, and the smaller one is not the empty sentence with count 0,
    the second loop derives (difference of the cells, difference of the
    counts), whichever of the two comes first in the list: with a count
    other than 0 the derived sentence is appended after the two and nothing
    else changes; with count 0 its cells are added to [safes]. *)
Theorem subset_resolution (o : SetIter) (ai : MinesweeperAI) (small big : Sentence) :
  well_formed ai →
  sentences ai = [small; big] ∨ sentences ai = [big; small] →
  len_cells small ≠ len_cells big → cells small ⊆ cells big →
  small ≠ {| cells := ∅; count := 0 |} →
  let d := {| cells := cells big ∖ cells small; count := count big - count small |} in
  (count d ≠ 0 →
     sentences (combine_pass ai) = sentences ai ++ [d] ∧
     facts (combine_pass ai) = facts ai) ∧
  (count d = 0 →
     facts (combine_pass ai)
     = (height ai, width ai, moves_made ai, mines ai, cells d ∪ safes ai)).
Proof.
  intros Hwf Hk Hlen Hsub Hne d.
  destruct (difference_not_known small big Hlen Hsub Hne) as [Hnew1 Hnew2].
  assert (¬ cells big ⊆ cells small) as Hnsub.
  { intros Hsup. apply Hlen. unfold len_cells. f_equal. f_equal.
    apply set_eq. intros x. split; [apply Hsub|apply Hsup]. }
  assert (combine_pass ai = derive d ai ∧ d ∉ sentences ai) as [-> Hd].
  { destruct Hk as [Hk|Hk].
    - destruct (combine_pass_pair ai small big Hk) as (r1 & r2 & _ & H1 & H2 & ->).
      unfold combine_body. simpl. rewrite H1, H2, Hk.
      rewrite decide_False, decide_True by done. done.
    - destruct (combine_pass_pair ai big small Hk) as (r1 & r2 & _ & H1 & H2 & ->).
      unfold combine_body. simpl. rewrite H1, H2, Hk.
      rewrite decide_False by (by apply not_eq_sym).
      rewrite decide_False, decide_True by done. done. }
  destruct (derive_cases d ai Hwf) as (_ & Hzero & Happend).
  split; intros Hcount; [by apply Happend|by apply Hzero].
Qed.

Lemma subset_resolution_witness :
  well_formed knows_A_B ∧
  len_cells sentence_A ≠ len_cells sentence_B ∧
  cells sentence_A ⊆ cells sentence_B ∧
  sentence_A ≠ {| cells := ∅; count := 0 |} ∧
  sentences (@combine_pass elements_iter knows_A_B)
  = sentences knows_A_B
    ++ [{| cells := cells sentence_B ∖ cells sentence_A; count := 2 - 1 |}].
Proof.
  assert (well_formed knows_A_B) as Hwf.
  { apply well_formed_append_sentence, well_formed_append_sentence.
    split; [apply NoDup_nil_2|apply Forall_nil_2]. }
  assert (len_cells sentence_A ≠ len_cells sentence_B) as Hlen
    by (vm_compute; discriminate).
  assert (cells sentence_A ⊆ cells sentence_B) as Hsub
    by (apply (bool_decide_unpack _); vm_compute; exact I).
  assert (sentence_A ≠ {| cells := ∅; count := 0 |}) as Hne by discriminate.
  split; [exact Hwf|]. split; [exact Hlen|]. split; [exact Hsub|]. split; [exact Hne|].
  destruct (subset_resolution elements_iter knows_A_B sentence_A sentence_B
    Hwf (or_introl eq_refl) Hlen Hsub Hne) as [Happend _].
  apply Happend. discriminate.
Defined.

(** X19. What the second loop leaves alone.  Two sentences with the same
    number of cells are not combined, equal or not, and neither are two
    sentences of which neither has its cells among the cells of the other:
    on a knowledge base of two such sentences the second loop changes
    nothing. *)
Theorem unrelated_sentences_not_combined (o : SetIter) (ai : MinesweeperAI)
    (s1 s2 : Sentence) :
  sentences ai = [s1; s2] →
  len_cells s1 = len_cells s2 ∨ (¬ cells s1 ⊆ cells s2 ∧ ¬ cells s2 ⊆ cells s1) →
  combine_pass ai = ai.
Proof.
  intros Hk Hunrelated.
  destruct (combine_pass_pair ai s1 s2 Hk) as (r1 & r2 & _ & H1 & H2 & ->).
  unfold combine_body. simpl. rewrite H1, H2.
  destruct Hunrelated as [Hlen|[Hsub Hsup]].
  - by rewrite decide_True.
  - case_decide; [done|]. by rewrite !decide_False.
Qed.

Lemma unrelated_sentences_not_combined_witness :
  let ai := append_sentence sentence_A (append_sentence sentence_A (init 8 8)) in
  sentences ai = [sentence_A; sentence_A] ∧
  (len_cells sentence_A = len_cells sentence_A
   ∨ (¬ cells sentence_A ⊆ cells sentence_A ∧ ¬ cells sentence_A ⊆ cells sentence_A)) ∧
  @combine_pass elements_iter ai = ai.
Proof.
  split; [reflexivity|]. split; [by left|].
  apply (unrelated_sentences_not_combined elements_iter _ sentence_A sentence_A);
    [reflexivity|by left].
Defined.

(** ** Random moves, at the edges *)

Lemma randint_range gen k a b z : randint gen k a b = Some z → a ≤ z ≤ b.
Proof.
  unfold randint. case_decide; [discriminate|]. intros [= <-].
  pose proof (Z.mod_pos_bound (gen k) (b - a + 1)). lia.
Qed.

Lemma sample_from_on_board gen left attempts ai c n :
  sample_from gen left attempts ai = (Return (Some c), n) →
  0 ≤ c.1 < height ai ∧ 0 ≤ c.2 < width ai.
Proof.
  revert attempts. induction left as [|left IH]; intros attempts Hrun;
    cbn [sample_from] in Hrun; [discriminate|].
  destruct (randint gen (2 * attempts) 0 (height ai - 1)) as [i|] eqn:Hi;
    [|discriminate].
  destruct (randint gen (2 * attempts + 1) 0 (width ai - 1)) as [j|] eqn:Hj;
    [|discriminate].
  destruct (bool_decide _); [|by eapply IH].
  injection Hrun as <- _. apply randint_range in Hi, Hj. cbn [fst snd]. lia.
Qed.

(** X20. A cell returned by [make_random_move] is a cell of the board. *)
Theorem make_random_move_on_board (gen : nat → Z) (ai ai' : MinesweeperAI)
    (c : cell) (n : nat) :
  make_random_move gen ai = (Return (Some c), n, ai') →
  0 ≤ c.1 < height ai ∧ 0 ≤ c.2 < width ai.
Proof.
  unfold make_random_move. intros [= Hsample _].
  by eapply sample_from_on_board.
Qed.

Lemma make_random_move_on_board_witness :
  make_random_move (λ _, 0) (init 2 2) = (Return (Some (0, 0)), 1%nat, init 2 2) ∧
  0 ≤ (0, 0).1 < height (init 2 2) ∧ 0 ≤ (0, 0).2 < width (init 2 2).
Proof.
  assert (make_random_move (λ _, 0) (init 2 2)
    = (Return (Some (0, 0)), 1%nat, init 2 2)) as Hrun by (vm_compute; reflexivity).
  split; [exact Hrun|].
  exact (make_random_move_on_board _ _ _ _ _ Hrun).
Defined.

(** X21. [make_random_move] samples only when [height * width] is positive:
    otherwise it returns [None] at once.  It raises (the [ValueError] of
    [random.randint]) only when both dimensions are negative: with a
    dimension that is not negative it always returns. *)
Theorem make_random_move_degenerate (gen : nat → Z) (ai : MinesweeperAI) :
  (height ai * width ai ≤ 0 →
     make_random_move gen ai = (Return None, 0%nat, ai)) ∧
  (0 ≤ height ai ∨ 0 ≤ width ai →
     ∃ r n, make_random_move gen ai = (Return r, n, ai)).
Proof.
  unfold make_random_move. split.
  - intros Hnone.
    by replace (Z.to_nat (height ai * width ai * 10)) with 0%nat by lia.
  - intros Hdim.
    destruct (decide (1 ≤ height ai ∧ 1 ≤ width ai)) as [[Hh Hw]|Hsmall].
    + destruct (sample_from_spec gen (Z.to_nat (height ai * width ai * 10)) 0 ai Hh Hw)
        as (r & n & -> & _). by exists r, n.
    + assert (height ai * width ai ≤ 0) as Hnone.
      { destruct Hdim, (decide (1 ≤ height ai)), (decide (1 ≤ width ai)); try tauto; nia. }
      replace (Z.to_nat (height ai * width ai * 10)) with 0%nat by lia.
      by exists None, 0%nat.
Qed.
